(** * Audero LSG: the extraction and normalisation engine of [src/audero-lsg.js]

    A shallow embedding of the functions of [audero-lsg.js] that turn a parsed
    style sheet into lists of colours, font sizes, fonts and spacings, together
    with the parts of the host language they rely on (strings, arrays, regular
    expressions, numbers, exceptions).

    Conventions of the embedding:
    - a JavaScript string is a [string]; a character is one code unit, and the
      model covers the code units below 256;
    - a JavaScript number is an IEEE 754 binary64 value, a [spec_float] used at
      precision 53 and maximal exponent 1024;
    - a value that may be [undefined] is a [jsval];
    - a computation that may raise is a [completion]. *)

From Stdlib Require Import List String Ascii ZArith Bool Lia Permutation Sorted.
From Stdlib Require Import SpecFloat.
Import ListNotations.

Local Open Scope string_scope.
Local Open Scope Z_scope.

(** ** Values and completions *)

(** The entries of the arrays handed over by the property aggregator: a raw
    value string, or [undefined] for a blank or absent declaration. *)
Inductive jsval : Type :=
| JUndefined
| JString (s : string).

Definition jsval_eqb (a b : jsval) : bool :=
  match a, b with
  | JUndefined, JUndefined => true
  | JString s, JString t => String.eqb s t
  | _, _ => false
  end.

(** [Boolean(v)]: [undefined] and the empty string are falsy. *)
Definition truthy (v : jsval) : bool :=
  match v with
  | JUndefined => false
  | JString "" => false
  | JString _ => true
  end.

Inductive error : Type :=
| TypeError.

Inductive completion (A : Type) : Type :=
| Normal (a : A)
| Throw (e : error).

Arguments Normal {A} a.
Arguments Throw {A} e.

Definition bind {A B : Type} (c : completion A) (k : A -> completion B) : completion B :=
  match c with
  | Normal a => k a
  | Throw e => Throw e
  end.

Notation "x <- c ;; k" := (bind c (fun x => k))
  (at level 61, c at next level, right associativity).

(** [try { c } catch (ex) { h }] *)
Definition try_catch {A : Type} (c : completion A) (h : error -> completion A) : completion A :=
  match c with
  | Normal a => Normal a
  | Throw e => h e
  end.

(** The receiver of a string method: calling a method on [undefined] raises. *)
Definition receiver (v : jsval) : completion string :=
  match v with
  | JUndefined => Throw TypeError
  | JString s => Normal s
  end.

(** ** Strings *)

Module Str.

Definition is_empty (s : string) : bool :=
  match s with
  | EmptyString => true
  | String _ _ => false
  end.

Fixpoint index_from (i : Z) (pat s : string) : Z :=
  if String.prefix pat s then i
  else match s with
       | EmptyString => -1
       | String _ s' => index_from (i + 1) pat s'
       end.

(** [s.indexOf(pat)]: the position of the first occurrence of [pat] in [s],
    or [-1]. *)
Definition indexOf (s pat : string) : Z := index_from 0 pat s.

(** [s.split(sep)] for a separator of one character. *)
Fixpoint split (sep : ascii) (s : string) : list string :=
  match s with
  | EmptyString => [EmptyString]
  | String c s' =>
      if Ascii.eqb c sep then EmptyString :: split sep s'
      else match split sep s' with
           | t :: ts => String c t :: ts
           | [] => [String c EmptyString]
           end
  end.


(** White space and line terminators, as [trim], [\s] and [parseFloat] see
    them: TAB, LF, VT, FF, CR, SP and NBSP. *)
Definition is_space (c : ascii) : bool :=
  let n := N_of_ascii c in
  (((9 <=? n) && (n <=? 13)) || (n =? 32) || (n =? 160))%N.

(** LF and CR, which [.] does not match. *)
Definition is_line_terminator (c : ascii) : bool :=
  let n := N_of_ascii c in
  ((n =? 10) || (n =? 13))%N.

Fixpoint trim_start (s : string) : string :=
  match s with
  | EmptyString => EmptyString
  | String c s' => if is_space c then trim_start s' else s
  end.

Fixpoint trim_end (s : string) : string :=
  match s with
  | EmptyString => EmptyString
  | String c s' =>
      let t := trim_end s' in
      if is_space c && is_empty t then EmptyString else String c t
  end.

(** [s.trim()] *)
Definition trim (s : string) : string := trim_end (trim_start s).

Fixpoint has_char (c : ascii) (s : string) : bool :=
  match s with
  | EmptyString => false
  | String d s' => Ascii.eqb d c || has_char c s'
  end.

Fixpoint skipn (n : nat) (s : string) : string :=
  match n, s with
  | O, _ => s
  | S _, EmptyString => EmptyString
  | S n', String _ s' => skipn n' s'
  end.

Fixpoint firstn (n : nat) (s : string) : string :=
  match n, s with
  | O, _ => EmptyString
  | S _, EmptyString => EmptyString
  | S n', String c s' => String c (firstn n' s')
  end.

Definition is_digit (c : ascii) : bool :=
  let n := N_of_ascii c in
  ((48 <=? n) && (n <=? 57))%N.

Definition digit_value (c : ascii) : Z := Z.of_N (N_of_ascii c) - 48.

(** The upper-case form of an ASCII letter; other characters are unchanged.
    Case-insensitive matching against an ASCII pattern character compares
    upper-case forms, and no character outside ASCII has an ASCII one. *)
Definition upper (c : ascii) : ascii :=
  let n := N_of_ascii c in
  if ((97 <=? n) && (n <=? 122))%N then ascii_of_N (n - 32) else c.

End Str.

(** ** Arrays *)

Module Arr.

Section WithEq.
Context {A : Type}.
Variable eqb : A -> A -> bool.

Fixpoint index_from (i : Z) (x : A) (l : list A) : Z :=
  match l with
  | [] => -1
  | y :: l' => if eqb y x then i else index_from (i + 1) x l'
  end.

(** [l.indexOf(x)]: the position of the first element strictly equal to [x],
    or [-1]. *)
Definition indexOf (l : list A) (x : A) : Z := index_from 0 x l.

End WithEq.

(** [l.filter(function(element, index) {...})] *)
Fixpoint filteri_from {A : Type} (i : Z) (f : A -> Z -> bool) (l : list A) : list A :=
  match l with
  | [] => []
  | x :: l' => if f x i then x :: filteri_from (i + 1) f l' else filteri_from (i + 1) f l'
  end.

Definition filteri {A : Type} (f : A -> Z -> bool) (l : list A) : list A :=
  filteri_from 0 f l.

(** [l.filter(f)] for a callback that may raise. *)
Fixpoint filterM {A : Type} (f : A -> completion bool) (l : list A) : completion (list A) :=
  match l with
  | [] => Normal []
  | x :: l' =>
      b <- f x ;;
      r <- filterM f l' ;;
      Normal (if b then x :: r else r)
  end.

(** [l.reduce(f, init)] for a callback that may raise. *)
Fixpoint reduceM {A B : Type} (f : B -> A -> completion B) (l : list A) (init : B) : completion B :=
  match l with
  | [] => Normal init
  | x :: l' => acc <- f init x ;; reduceM f l' acc
  end.

(** [l.pop()], of which the program only uses the returned element:
    the last element, or [undefined] for an empty array. *)
Definition pop {A : Type} (l : list A) : option A :=
  match rev l with
  | [] => None
  | x :: _ => Some x
  end.

Section Sort.
Context {A : Type}.
(** [after x y]: the comparison function puts [x] after [y], that is
    [comparefn(x, y) > 0]. A result that is negative, zero or NaN leaves the
    two in their order. *)
Variable after : A -> A -> bool.

Fixpoint insert (x : A) (l : list A) : list A :=
  match l with
  | [] => [x]
  | y :: l' => if after x y then y :: insert x l' else x :: l
  end.

(** [l.sort(comparefn)] as a stable insertion sort. For a consistent
    comparison function every stable sort gives this result; for an
    inconsistent one (such as one that returns NaN for some pairs only) the
    order is implementation-defined and only the fact that the result is a
    permutation is to be relied on: the properties below state the order of
    a sorted array only where the comparison function is consistent. *)
Fixpoint sort (l : list A) : list A :=
  match l with
  | [] => []
  | x :: l' => insert x (sort l')
  end.

End Sort.

End Arr.

(** ** Regular expressions

    A backtracking matcher in the order of the language's own: the matcher of
    a pattern maps a state to the list of the states it can end in, the first
    one being the one the engine finds first. *)

Module Regex.

Inductive re : Type :=
| Eps
| Class (p : ascii -> bool)
| Seq (r1 r2 : re)
| Alt (r1 r2 : re)
| Star (greedy : bool) (r : re)
| Group (r : re)
| Bol
| Eol.

(** [index] code units of the input lie before [rest]; [capture] is what the
    capture group has matched. No pattern of the program has more than one
    group, or a group under a quantifier. *)
Record state : Type := mkState { index : nat; rest : string; capture : jsval }.

(** The iterations of a quantified [body]: an iteration that consumes nothing
    is rejected, so at most [length (rest st)] of them follow each other. *)
Fixpoint iterate (body : state -> list state) (greedy : bool) (fuel : nat) (st : state) : list state :=
  match fuel with
  | O => [st]
  | S fuel' =>
      let more :=
        flat_map (fun st' =>
                    if (String.length (rest st') <? String.length (rest st))%nat
                    then iterate body greedy fuel' st' else [])
                 (body st) in
      if greedy then (more ++ [st])%list else st :: more
  end.

Fixpoint run (r : re) (st : state) : list state :=
  match r with
  | Eps => [st]
  | Class p =>
      match rest st with
      | String c s' => if p c then [mkState (S (index st)) s' (capture st)] else []
      | EmptyString => []
      end
  | Seq r1 r2 => flat_map (run r2) (run r1 st)
  | Alt r1 r2 => (run r1 st ++ run r2 st)%list
  | Star g r' => iterate (run r') g (String.length (rest st)) st
  | Group r' =>
      map (fun st' =>
             mkState (index st') (rest st')
                     (JString (Str.firstn (index st' - index st) (rest st))))
          (run r' st)
  | Bol => if (index st =? 0)%nat then [st] else []
  | Eol => if Str.is_empty (rest st) then [st] else []
  end.

Record match_result : Type :=
  mkMatch { m_index : nat; m_text : string; m_group1 : jsval }.

Fixpoint exec_from (r : re) (i : nat) (s : string) : option match_result :=
  match run r (mkState i s JUndefined) with
  | st :: _ => Some (mkMatch i (Str.firstn (index st - i) s) (capture st))
  | [] =>
      match s with
      | EmptyString => None
      | String _ s' => exec_from r (S i) s'
      end
  end.

(** [re.exec(s)] for a pattern without the global flag: the first match at
    the leftmost position that has one, or [null]. *)
Definition exec (r : re) (s : string) : option match_result := exec_from r 0 s.

(** [re.test(s)] *)
Definition test (r : re) (s : string) : bool :=
  match exec r s with
  | Some _ => true
  | None => false
  end.

(** [s.replace(re, '')]: the first match is cut out. *)
Definition remove_first (r : re) (s : string) : string :=
  match exec r s with
  | None => s
  | Some m =>
      Str.firstn (m_index m) s ++ Str.skipn (m_index m + String.length (m_text m)) s
  end.

(** Pattern syntax. *)
Definition chr (c : ascii) : re := Class (Ascii.eqb c).
(** A letter of a pattern with the [i] flag. *)
Definition chr_i (c : ascii) : re := Class (fun d => Ascii.eqb (Str.upper d) (Str.upper c)).
Definition opt (r : re) : re := Alt r Eps.
Definition plus (r : re) : re := Seq r (Star true r).
Fixpoint rep (n : nat) (r : re) : re :=
  match n with
  | O => Eps
  | S n' => Seq r (rep n' r)
  end.
(** [.] *)
Definition dot : re := Class (fun c => negb (Str.is_line_terminator c)).
(** [\s] *)
Definition space : re := Class Str.is_space.

End Regex.

(** ** Numbers *)

Module Num.

Definition num : Type := spec_float.

Definition prec : Z := 53.
Definition emax : Z := 1024.

Definition nan : num := S754_nan.
Definition mul : num -> num -> num := SFmul prec emax.
Definition div : num -> num -> num := SFdiv prec emax.
Definition sub : num -> num -> num := SFsub prec emax.

(** The number value of an integer. *)
Definition of_Z (z : Z) : num := binary_normalize prec emax z 0 false.

(** [x > 0] and [x < 0]; both are false of a zero and of NaN. *)
Definition is_pos (x : num) : bool :=
  match x with
  | S754_finite false _ _ | S754_infinity false => true
  | _ => false
  end.

Definition is_neg (x : num) : bool :=
  match x with
  | S754_finite true _ _ | S754_infinity true => true
  | _ => false
  end.

Definition is_nan (x : num) : bool :=
  match x with
  | S754_nan => true
  | _ => false
  end.

(** The number value of [(-1)^neg * m * 10^e10], rounded to nearest even. *)
Definition of_decimal (neg : bool) (m e10 : Z) : num :=
  match m with
  | Zpos p =>
      if 0 <=? e10 then binary_normalize prec emax (cond_Zopp neg (m * 10 ^ e10)) 0 false
      else SFdiv prec emax (S754_finite neg p 0)
                           (S754_finite false (Z.to_pos (10 ^ (- e10))) 0)
  | _ => S754_zero neg
  end.

(** *** [parseFloat] *)

(** The digits at the head of [s]: their value continuing [acc], how many
    there are, and what follows them. *)
Fixpoint scan_digits (s : string) (acc : Z) (count : Z) : Z * Z * string :=
  match s with
  | String c s' =>
      if Str.is_digit c then scan_digits s' (acc * 10 + Str.digit_value c) (count + 1)
      else (acc, count, s)
  | EmptyString => (acc, count, s)
  end.

(** An exponent part [e], [e+] or [e-] followed by digits, or 0 when what
    follows the mantissa is not one. *)
Definition scan_exponent (s : string) : Z :=
  match s with
  | String c s' =>
      if Ascii.eqb c "e" || Ascii.eqb c "E" then
        let '(neg, s'') :=
          match s' with
          | String "+" t => (false, t)
          | String "-" t => (true, t)
          | _ => (false, s')
          end in
        let '(v, count, _) := scan_digits s'' 0 0 in
        if count =? 0 then 0 else cond_Zopp neg v
      else 0
  | EmptyString => 0
  end.

(** [parseFloat(s)]: the number value of the longest prefix of [s], after
    leading white space, that is a decimal literal; NaN when there is none. *)
Definition parseFloat (s : string) : num :=
  let s0 := Str.trim_start s in
  let '(neg, s1) :=
    match s0 with
    | String "+" t => (false, t)
    | String "-" t => (true, t)
    | _ => (false, s0)
    end in
  if String.prefix "Infinity" s1 then S754_infinity neg
  else
    let '(ip, icount, s2) := scan_digits s1 0 0 in
    let '(m, fcount, s3) :=
      match s2 with
      | String "." t => scan_digits t ip 0
      | _ => (ip, 0, s2)
      end in
    if (icount =? 0) && (fcount =? 0) then nan
    else of_decimal neg m (scan_exponent s3 - fcount).

(** *** Number to string *)

Fixpoint digits_of (fuel : nat) (z : Z) (acc : string) : string :=
  match fuel with
  | O => acc
  | S fuel' =>
      let acc' := String (ascii_of_N (Z.to_N (48 + z mod 10))) acc in
      if z <? 10 then acc' else digits_of fuel' (z / 10) acc'
  end.

(** The decimal digits of a natural number. *)
Definition Z_to_string (z : Z) : string :=
  digits_of (S (Z.to_nat (Z.log2 z))) z EmptyString.

Fixpoint zeros (n : nat) : string :=
  match n with
  | O => EmptyString
  | S n' => String "0" (zeros n')
  end.

(** [floor (p / q * 10^j)] *)
Definition scaled_floor (p q j : Z) : Z :=
  if 0 <=? j then (p * 10 ^ j) / q else p / (q * 10 ^ (- j)).

(** The least [j >= from] with [p / q * 10^j >= 1]. *)
Fixpoint first_scale (fuel : nat) (p q from : Z) : Z :=
  match fuel with
  | O => from
  | S fuel' => if 1 <=? scaled_floor p q from then from else first_scale fuel' p q (from + 1)
  end.

(** The [n] with [10^(n-1) <= p / q < 10^n]. *)
Definition decimal_exponent (p q : Z) : Z :=
  if q <=? p then Z.of_nat (String.length (Z_to_string (p / q)))
  else 1 - first_scale 400 p q 1.

(** The shortest digit string [s] of [k] digits, from [k] on, and the
    exponent [n] for which [s * 10^(n-k)] has the number value [v], the
    positive number [p / q]; of two such strings of the same length the one
    nearer to [v]. *)
Fixpoint shortest (fuel : nat) (v : num) (p q n k : Z) : Z * Z * Z :=
  let low := scaled_floor p q (k - n) in
  let high := low + 1 in
  let ok_low := SFeqb (of_decimal false low (n - k)) v in
  let ok_high := SFeqb (of_decimal false high (n - k)) v in
  let pick_high := if high =? 10 ^ k then (10 ^ (k - 1), n + 1, k) else (high, n, k) in
  match fuel with
  | O => (low, n, k)
  | S fuel' =>
      if ok_low && ok_high then
        (* which of low and high is nearer: compare 2 * v * 10^(k-n) with 2 * low + 1 *)
        match scaled_floor (2 * p) q (k - n) ?= 2 * low + 1 with
        | Lt => (low, n, k)
        | _ => pick_high
        end
      else if ok_low then (low, n, k)
      else if ok_high then pick_high
      else shortest fuel' v p q n (k + 1)
  end.

(** The text of digits [s] ([k] of them) with decimal exponent [n]. *)
Definition format (s n k : Z) : string :=
  let ds := Z_to_string s in
  if (k <=? n) && (n <=? 21) then ds ++ zeros (Z.to_nat (n - k))
  else if (0 <? n) && (n <=? 21) then
    Str.firstn (Z.to_nat n) ds ++ "." ++ Str.skipn (Z.to_nat n) ds
  else if (-6 <? n) && (n <=? 0) then "0." ++ zeros (Z.to_nat (- n)) ++ ds
  else
    let e := n - 1 in
    let mant := if k =? 1 then ds else Str.firstn 1 ds ++ "." ++ Str.skipn 1 ds in
    mant ++ "e" ++ (if 0 <=? e then "+" else "-") ++ Z_to_string (Z.abs e).

(** [String(x)], the text a number has when it is concatenated to a string. *)
Definition to_string (x : num) : string :=
  match x with
  | S754_nan => "NaN"
  | S754_zero _ => "0"
  | S754_infinity false => "Infinity"
  | S754_infinity true => "-Infinity"
  | S754_finite neg m e =>
      let p := if 0 <=? e then Zpos m * 2 ^ e else Zpos m in
      let q := if 0 <=? e then 1 else 2 ^ (- e) in
      let '(s, n, k) := shortest 17 (S754_finite false m e) p q (decimal_exponent p q) 1 in
      (if neg then "-" else "") ++ format s n k
  end.

End Num.

(** ** Objects used as maps *)

Module Obj.

(** An ordinary object with string keys: its own properties in the order
    they were created. *)
Definition obj (V : Type) : Type := list (string * V).

(** [o[k]]: the value of the property, or [undefined]. *)
Fixpoint get {V : Type} (o : obj V) (k : string) : option V :=
  match o with
  | [] => None
  | (k', v) :: o' => if String.eqb k' k then Some v else get o' k
  end.

Fixpoint set {V : Type} (o : obj V) (k : string) (v : V) : obj V :=
  match o with
  | [] => [(k, v)]
  | (k', v') :: o' => if String.eqb k' k then (k, v) :: o' else (k', v') :: set o' k v
  end.

(** [o[k] = v] for a value [v] that is not an object. Under the key
    [__proto__] the assignment reaches the accessor inherited from
    [Object.prototype], which ignores such a value: no property is created. *)
Definition assign {V : Type} (o : obj V) (k : string) (v : V) : obj V :=
  if String.eqb k "__proto__" then o else set o k v.

(** The property key a value is converted to. *)
Definition key_of (v : jsval) : string :=
  match v with
  | JUndefined => "undefined"
  | JString s => s
  end.

Fixpoint all_digits (s : string) : bool :=
  match s with
  | EmptyString => true
  | String c s' => Str.is_digit c && all_digits s'
  end.

Definition numeric_value (s : string) : Z := fst (fst (Num.scan_digits s 0 0)).

(** An array index: the canonical decimal text of an integer below
    [2^32 - 1]. *)
Definition is_array_index (s : string) : bool :=
  match s with
  | EmptyString => false
  | String "0" EmptyString => true
  | String "0" _ => false
  | _ => all_digits s && (numeric_value s <? 4294967295)
  end.

(** [Object.keys(o)]: the array indices in ascending order, then the other
    keys in the order of their creation. *)
Definition keys {V : Type} (o : obj V) : list string :=
  let ks := map fst o in
  (Arr.sort (fun x y => numeric_value y <? numeric_value x) (filter is_array_index ks)
   ++ filter (fun k => negb (is_array_index k)) ks)%list.

End Obj.

(** ** The parsed style sheet and its statistics *)

(** The entries of a declaration list of the parser. *)
Inductive declaration : Type :=
| Declaration (property value : string)
| Comment (comment : string).

(** The nodes of [stylesheet.rules]: [type] is ['rule'], ['font-face'] or any
    other ([media], [keyframes], [comment], ...). *)
Inductive rule : Type :=
| Rule (selectors : list string) (declarations : list declaration)
| FontFace (declarations : list declaration)
| OtherRule (type : string).

Definition declarations_of (r : rule) : list declaration :=
  match r with
  | Rule _ ds => ds
  | FontFace ds => ds
  | OtherRule _ => []
  end.

(** The [declarations] part of what the aggregator returns: [properties] maps
    a property name to the values given to it, in source order;
    [getAllFontSizes()] and [getAllFontFamilies()] return lists of values. *)
Record Declarations : Type := mkDeclarations {
  properties : Obj.obj (list jsval);
  getAllFontSizes : list string;
  getAllFontFamilies : list string
}.

Record StyleGuide : Type := mkStyleGuide {
  cssAst : list rule;
  statistics : Declarations
}.

(** [x || []] for an array or [undefined]: an array is truthy, also when it
    is empty. *)
Definition or_empty {A : Type} (x : option (list A)) : list A :=
  match x with
  | Some l => l
  | None => []
  end.

(** [l.concat(x)] for an array or [undefined]: the elements of an array are
    appended, [undefined] is appended as one element. *)
Definition concat_value (l : list jsval) (x : option (list jsval)) : list jsval :=
  match x with
  | Some l' => (l ++ l')%list
  | None => (l ++ [JUndefined])%list
  end.

Definition of_option (x : option string) : jsval :=
  match x with
  | Some s => JString s
  | None => JUndefined
  end.

(** The default order of [sort()]: [undefined] last, strings by code units. *)
Definition default_after (x y : jsval) : bool :=
  match x, y with
  | JUndefined, JUndefined => false
  | JUndefined, JString _ => true
  | JString _, JUndefined => false
  | JString a, JString b => String.ltb b a
  end.

Definition string_after (a b : string) : bool := String.ltb b a.

(** ** The program *)

Definition defaultFontSize : string := "16px".

Definition excludedValues : list jsval :=
  [JString "auto"; JString "inherit"; JString "initial"; JString "none"].

(** [excludedValues.indexOf(item) < 0] *)
Definition not_excluded (item : jsval) : bool :=
  Arr.indexOf jsval_eqb excludedValues item <? 0.

Definition unique {A : Type} (eqb : A -> A -> bool) (array : list A) : list A :=
  Arr.filteri (fun element index => Arr.indexOf eqb array element =? index) array.

Definition remToPx (rootFontSize : Num.num) (fontSize : string) : string :=
  Num.to_string (Num.mul (Num.parseFloat (Num.to_string rootFontSize))
                         (Num.parseFloat fontSize)) ++ "px".

Definition hex_digit (c : ascii) : bool :=
  Str.is_digit c ||
  (let n := N_of_ascii (Str.upper c) in ((65 <=? n) && (n <=? 70))%N).

(** [/^#([\dA-F]{3}|[\dA-F]{6})$/i] *)
Definition hexColorRegex : Regex.re :=
  Regex.Seq Regex.Bol
   (Regex.Seq (Regex.chr "#")
     (Regex.Seq (Regex.Group (Regex.Alt (Regex.rep 3 (Regex.Class hex_digit))
                                        (Regex.rep 6 (Regex.Class hex_digit))))
                Regex.Eol)).

Definition isHackyColor (color : jsval) : completion bool :=
  c <- receiver color ;;
  if negb (Str.indexOf c "#" =? 0) then Normal false
  else Normal (negb (Regex.test hexColorRegex c)).

Definition sortScalableFontSizes (rootFontSize : Num.num) (size1 size2 : string) : Num.num :=
  let size1' := Num.mul (Num.parseFloat size1)
                        (if 0 <=? Str.indexOf size1 "rem" then rootFontSize else Num.of_Z 1) in
  let size2' := Num.mul (Num.parseFloat size2)
                        (if 0 <=? Str.indexOf size2 "rem" then rootFontSize else Num.of_Z 1) in
  Num.sub size1' size2'.

Definition unit_char (c : ascii) : bool :=
  Ascii.eqb c "-" || Str.is_digit c || Ascii.eqb c ".".

(** [/([-\d.]+).*/] *)
Definition unitRegex : Regex.re :=
  Regex.Seq (Regex.Group (Regex.plus (Regex.Class unit_char))) (Regex.Star true Regex.dot).

(** The single quote and the double quote (code unit 34). *)
Definition is_quote (c : ascii) : bool := Ascii.eqb c "'" || Ascii.eqb c "034".

(** The pattern of [getFontUrls], with the flag [i]; it is written here with
    blanks between its parts, and [Q] for the class of the two quote
    characters:  [url  \s*  \(  Q?  ( .*? )  (?: \? .* )?  Q?  \)] *)
Definition urlRegex : Regex.re :=
  Regex.Seq (Regex.chr_i "u") (Regex.Seq (Regex.chr_i "r") (Regex.Seq (Regex.chr_i "l")
   (Regex.Seq (Regex.Star true Regex.space)
    (Regex.Seq (Regex.chr "(")
     (Regex.Seq (Regex.opt (Regex.Class is_quote))
      (Regex.Seq (Regex.Group (Regex.Star false Regex.dot))
       (Regex.Seq (Regex.opt (Regex.Seq (Regex.chr "?") (Regex.Star true Regex.dot)))
        (Regex.Seq (Regex.opt (Regex.Class is_quote))
                   (Regex.chr ")"))))))))).

Section Core.

(** [a.localeCompare(b)]: the collation of the host's locale, which the
    program does not fix. *)
Variable localeCompare : string -> string -> Num.num.

Definition sortUnitValues (item1 item2 : string) : Num.num :=
  let unit1 := Regex.remove_first unitRegex item1 in
  let unit2 := Regex.remove_first unitRegex item2 in
  if negb (String.eqb unit1 unit2) then localeCompare unit1 unit2
  else Num.sub (Num.parseFloat item1) (Num.parseFloat item2).

Definition is_html_rule (r : rule) : bool :=
  match r with
  | Rule [selector] _ => String.eqb selector "html"
  | _ => false
  end.

Definition is_declaration_of (name : string) (d : declaration) : bool :=
  match d with
  | Declaration property _ => String.eqb property name
  | Comment _ => false
  end.

Definition value_of (d : declaration) : string :=
  match d with
  | Declaration _ value => value
  | Comment _ => EmptyString
  end.

Definition getRootFontSize (styleGuide : StyleGuide) : string :=
  let fontSize :=
    Arr.pop
      (filter (is_declaration_of "font-size")
         (fold_left (fun previous declarationBlock => (previous ++ declarations_of declarationBlock)%list)
                    (filter is_html_rule (cssAst styleGuide)) [])) in
  match fontSize with
  | None => defaultFontSize
  | Some fontSize =>
      if 0 <=? Str.indexOf (value_of fontSize) "%" then
        Num.to_string
          (Num.div (Num.mul (Num.parseFloat defaultFontSize) (Num.parseFloat (value_of fontSize)))
                   (Num.of_Z 100)) ++ "px"
      else value_of fontSize
  end.

Definition is_scalable (size : string) : bool :=
  (0 <=? Str.indexOf size "rem") || (0 <=? Str.indexOf size "px").

Definition scaleFontSizes (fontSizes : list string) (rootSize : string) : list (string * string) :=
  let unitlessRootSize := Num.parseFloat rootSize in
  map (fun size =>
         if 0 <=? Str.indexOf size "rem" then (remToPx unitlessRootSize size, size)
         else (size, size))
      (rev (Arr.sort (fun a b => Num.is_pos (sortScalableFontSizes unitlessRootSize a b))
                     (filter is_scalable fontSizes))).

Definition filterScalableFontSizes (fontSizes : list string) : list string :=
  rev (Arr.sort (fun a b => Num.is_pos (sortUnitValues a b))
                (filter (fun size => (Str.indexOf size "rem" <? 0) && (Str.indexOf size "px" <? 0))
                        fontSizes)).

Definition getBackgroundColors (this : StyleGuide) : completion (list jsval) :=
  let properties := properties (statistics this) in
  let colors := filter truthy (or_empty (Obj.get properties "background-color")) in
  if (List.length colors =? 0)%nat then Normal colors
  else
    colors <- Arr.filterM (fun color => hacky <- isHackyColor color ;; Normal (negb hacky)) colors ;;
    Normal (Arr.sort default_after (filter not_excluded (unique jsval_eqb colors))).

Definition getColorColors (this : StyleGuide) : completion (list jsval) :=
  let properties := properties (statistics this) in
  let colors := filter truthy (or_empty (Obj.get properties "color")) in
  if (List.length colors =? 0)%nat then Normal colors
  else
    colors <- Arr.filterM (fun color => hacky <- isHackyColor color ;; Normal (negb hacky)) colors ;;
    Normal (Arr.sort default_after (filter not_excluded (unique jsval_eqb colors))).

Definition getColors (this : StyleGuide) : completion (list jsval) :=
  textColors <- getColorColors this ;;
  backgroundColors <- getBackgroundColors this ;;
  Normal (Arr.sort default_after (unique jsval_eqb (textColors ++ backgroundColors)%list)).

Definition getFontSizes (this : StyleGuide) : list string :=
  let fontsSizes := getAllFontSizes (statistics this) in
  filter (fun item => not_excluded (JString item)) (unique String.eqb fontsSizes).

Definition getFontFamilies (this : StyleGuide) : list string :=
  getAllFontFamilies (statistics this).

(** The callback of the two [reduce] calls over font stacks. *)
Definition add_fonts (previous : list string) (fontFamily : string) : list string :=
  (previous ++ map Str.trim (Str.split "," fontFamily))%list.

Definition getFontsInUse (this : StyleGuide) : list string :=
  let fontsFamilies := fold_left add_fonts (getFontFamilies this) [] in
  Arr.sort string_after (unique String.eqb fontsFamilies).

(** The body of the [forEach] of [getFontUrls]. *)
Definition add_font_url (hash : Obj.obj jsval) (declarationBlock : rule)
  : completion (Obj.obj jsval) :=
  let fontFamily :=
    of_option (Arr.pop (map value_of (filter (is_declaration_of "font-family")
                                             (declarations_of declarationBlock)))) in
  let url :=
    of_option (Arr.pop (map value_of (filter (is_declaration_of "src")
                                             (declarations_of declarationBlock)))) in
  try_catch
    (u <- receiver url ;;
     match Regex.exec urlRegex u with
     | None => Throw TypeError
     | Some m => Normal (Obj.assign hash (Obj.key_of fontFamily) (Regex.m_group1 m))
     end)
    (fun ex => Normal (Obj.assign hash (Obj.key_of fontFamily) (JString EmptyString))).

Definition is_font_face (r : rule) : bool :=
  match r with
  | FontFace _ => true
  | _ => false
  end.

Definition getFontUrls (this : StyleGuide) : completion (Obj.obj jsval) :=
  Arr.reduceM add_font_url (filter is_font_face (cssAst this)) [].

Definition getFontsNotInUse (this : StyleGuide) : completion (list string) :=
  fontUrls <- getFontUrls this ;;
  let declaredFonts := fold_left add_fonts (getFontsInUse this) [] in
  let declaredFonts := unique String.eqb declaredFonts in
  Normal (filter (fun font => Arr.indexOf String.eqb declaredFonts font <? 0) (Obj.keys fontUrls)).

Definition getFonts (this : StyleGuide) : completion (list string) :=
  notInUse <- getFontsNotInUse this ;;
  Normal (getFontsInUse this ++ notInUse)%list.

Definition getSpacings (this : StyleGuide) : completion (list string) :=
  let properties := properties (statistics this) in
  let spacings :=
    filter truthy (concat_value (or_empty (Obj.get properties "margin"))
                                (Obj.get properties "padding")) in
  if (List.length spacings =? 0)%nat then Normal []
  else
    spacings <- Arr.reduceM
                  (fun previous value => v <- receiver value ;; Normal (previous ++ Str.split " " v)%list)
                  spacings [] ;;
    Normal (rev (Arr.sort (fun a b => Num.is_pos (sortUnitValues a b))
                          (filter (fun item => not_excluded (JString item))
                                  (unique String.eqb spacings)))).

End Core.

(** ** Notions the properties are stated with *)

(** A collation to evaluate examples with: the order of the code units. *)
Definition code_unit_order (a b : string) : Num.num :=
  match String.compare a b with
  | Lt => Num.of_Z (-1)
  | Eq => Num.of_Z 0
  | Gt => Num.of_Z 1
  end.

(** A list of values is canonical when no entry occurs twice and none is one
    of [auto], [inherit], [initial], [none]. *)
Definition canonical {A : Type} (inj : A -> jsval) (l : list A) : Prop :=
  NoDup l /\ forall x, In x l -> ~ In (inj x) excludedValues.

(** Strictly ascending in the order of the code units. *)
Definition ascending (l : list string) : Prop :=
  StronglySorted (fun a b => String.compare a b = Lt) l.

(** The strings of a list of values. *)
Definition strings_of (l : list jsval) : list string :=
  flat_map (fun v => match v with JString s => [s] | JUndefined => [] end) l.

(** The values the aggregator holds for a property; none when the property
    does not occur. *)
Definition values_of (this : StyleGuide) (name : string) : list jsval :=
  or_empty (Obj.get (properties (statistics this)) name).

(** The hexadecimal digits. *)
Definition hex_chars : list ascii := list_ascii_of_string "0123456789abcdefABCDEF".

(** [#] followed by exactly three or exactly six hexadecimal digits. *)
Definition is_hex_color (c : string) : bool :=
  match c with
  | String "#" body =>
      ((String.length body =? 3)%nat || (String.length body =? 6)%nat)
      && forallb (fun d => existsb (Ascii.eqb d) hex_chars) (list_ascii_of_string body)
  | _ => false
  end.

(** [#] followed by anything else. *)
Definition is_hacky (c : string) : bool :=
  match c with
  | String "#" _ => negb (is_hex_color c)
  | _ => false
  end.

(** The values of the [font-size] declarations of the rules whose only
    selector is [html], in source order. *)
Definition html_font_sizes (this : StyleGuide) : list string :=
  flat_map (fun r => match r with
                     | Rule [selector] ds =>
                         if String.eqb selector "html" then
                           flat_map (fun d => match d with
                                              | Declaration property v =>
                                                  if String.eqb property "font-size" then [v] else []
                                              | Comment _ => []
                                              end) ds
                         else []
                     | _ => []
                     end)
           (cssAst this).

Fixpoint skip_digits (s : string) : string :=
  match s with
  | String c s' => if Str.is_digit c then skip_digits s' else s
  | EmptyString => s
  end.

Definition skip_sign (s : string) : string :=
  match s with
  | String "+" t => t
  | String "-" t => t
  | _ => s
  end.

(** What follows the leading numeral [sign digits fraction] of a value: its
    unit. *)
Definition unit_suffix (s : string) : string :=
  let s1 := skip_digits (skip_sign s) in
  match s1 with
  | String "." t => skip_digits t
  | _ => s1
  end.

Definition starts_with_digit (s : string) : bool :=
  match skip_sign s with
  | String c _ => Str.is_digit c
  | EmptyString => false
  end.

(** A percentage: a decimal numeral, with an optional sign and an optional
    fraction, followed by [%] and nothing else. *)
Definition is_percentage (s : string) : bool :=
  starts_with_digit s && String.eqb (unit_suffix s) "%".

(** The value of the last declaration of a property in a rule. *)
Definition last_value (name : string) (ds : list declaration) : jsval :=
  of_option (Arr.pop (map value_of (filter (is_declaration_of name) ds))).

(** [pat] occurs in [s]. *)
Definition occurs (pat s : string) : Prop :=
  exists a b, s = a ++ pat ++ b.

(** ** Notions the proofs are carried out with *)

Local Open Scope list_scope.

Definition jsval_eq_dec (a b : jsval) : {a = b} + {a <> b}.
Proof. decide equality. apply string_dec. Defined.

Definition hacky_value (v : jsval) : bool :=
  match v with
  | JString c => is_hacky c
  | JUndefined => false
  end.

(** What the two colour accessors compute from the values of their property. *)
Definition colors_of (this : StyleGuide) (name : string) : list jsval :=
  Arr.sort default_after
    (filter not_excluded
       (unique jsval_eqb
          (filter (fun v => negb (hacky_value v)) (filter truthy (values_of this name))))).

Definition is_string (v : jsval) : Prop :=
  match v with
  | JString _ => True
  | JUndefined => False
  end.

(** The URL [getFontUrls] records for a [font-face] rule with the
    declarations [ds]: the first group of the first match of the pattern in
    the last [src] value, or the empty string when there is no [src] or no
    match. *)
Definition url_of (ds : list declaration) : jsval :=
  match last_value "src" ds with
  | JUndefined => JString EmptyString
  | JString u =>
      match Regex.exec urlRegex u with
      | None => JString EmptyString
      | Some m => Regex.m_group1 m
      end
  end.

(** The names of a font stack: its parts between commas, trimmed. *)
Definition names_of (fontFamily : string) : list string :=
  map Str.trim (Str.split "," fontFamily).

(** A single font name: without a comma, and trimmed. *)
Definition is_name (s : string) : Prop :=
  Str.has_char "," s = false /\ Str.trim s = s.

(** What [getFontUrls] and [getFontsNotInUse] compute. *)
Definition font_urls_of (this : StyleGuide) : Obj.obj jsval :=
  fold_left (fun h r => Obj.assign h (Obj.key_of (last_value "font-family" (declarations_of r)))
                                   (url_of (declarations_of r)))
            (filter is_font_face (cssAst this)) [].

Definition fonts_not_in_use_of (this : StyleGuide) : list string :=
  filter (fun font =>
            Arr.indexOf String.eqb
              (unique String.eqb (fold_left add_fonts (getFontsInUse this) [])) font <? 0)
         (Obj.keys (font_urls_of this)).

(** The values of [margin] and [padding] that are not falsy. *)
Definition spacing_values (this : StyleGuide) : list string :=
  strings_of (filter truthy (values_of this "margin" ++ values_of this "padding")).

(** What [getSpacings] computes from the values of [margin] and [padding]. *)
Definition spacings_of (localeCompare : string -> string -> Num.num) (this : StyleGuide)
  : list string :=
  rev (Arr.sort (fun a b => Num.is_pos (sortUnitValues localeCompare a b))
                (filter (fun item => not_excluded (JString item))
                        (unique String.eqb (flat_map (Str.split " ") (spacing_values this))))).

(** The text a value containing [%] resolves to. *)
Definition percent_of_default (value : string) : string :=
  (Num.to_string (Num.div (Num.mul (Num.of_Z 16) (Num.parseFloat value)) (Num.of_Z 100))
   ++ "px")%string.

(** The states a quantified character class ends in, in the order the
    matcher tries them. *)
Fixpoint star_states (greedy : bool) (p : ascii -> bool) (i : nat) (s : string) (cap : jsval)
  : list Regex.state :=
  let here := Regex.mkState i s cap in
  let more :=
    match s with
    | String c s' => if p c then star_states greedy p (S i) s' cap else []
    | EmptyString => []
    end in
  if greedy then more ++ [here] else here :: more.

Fixpoint all_chars (p : ascii -> bool) (s : string) : bool :=
  match s with
  | EmptyString => true
  | String c s' => p c && all_chars p s'
  end.

(** [Q? \)] matches at the head of [r]. *)
Definition closes (r : string) : bool :=
  match r with
  | String c r' =>
      Ascii.eqb ")" c
      || (is_quote c && match r' with
                        | String c' _ => Ascii.eqb ")" c'
                        | EmptyString => false
                        end)
  | EmptyString => false
  end.

Definition close_re : Regex.re :=
  Regex.Seq (Regex.opt (Regex.Class is_quote)) (Regex.chr ")").

Definition query_re : Regex.re :=
  Regex.opt (Regex.Seq (Regex.chr "?") (Regex.Star true Regex.dot)).

Definition is_dot (c : ascii) : bool := negb (Str.is_line_terminator c).

(** The rest of the pattern after its group, [(?: \? .* )? Q? \)], matches
    at the head of [r]. *)
Definition tail_ok (r : string) : Prop :=
  closes r = true
  \/ exists d r', r = String "?" (d ++ r') /\ all_chars is_dot d = true /\ closes r' = true.

Definition tail_re : Regex.re := Regex.Seq query_re close_re.

(** The states the group of the pattern, [( .*? )], ends in: each prefix of
    characters other than line terminators, the shortest first. *)
Fixpoint group_states (pre : string) (i : nat) (s : string) : list Regex.state :=
  Regex.mkState i s (JString pre)
  :: match s with
     | String c s' => if is_dot c then group_states (pre ++ String c EmptyString) (S i) s' else []
     | EmptyString => []
     end.


(** What [getFontUrls] does with one [font-face] rule. *)
Definition font_url_step (h : Obj.obj jsval) (r : rule) : Obj.obj jsval :=
  Obj.assign h (Obj.key_of (last_value "font-family" (declarations_of r)))
             (url_of (declarations_of r)).


(** ** Example documents *)

(** A document given by its rules and by what the aggregator returns for it. *)
Definition document (rules : list rule) (props : Obj.obj (list jsval))
  (fontSizes fontFamilies : list string) : StyleGuide :=
  mkStyleGuide rules (mkDeclarations props fontSizes fontFamilies).

(** [h1{font-family:Arial} h2{font-family:Arial} p{font-family:inherit}] *)
Definition families_doc : StyleGuide :=
  document [Rule ["h1"] [Declaration "font-family" "Arial"];
            Rule ["h2"] [Declaration "font-family" "Arial"];
            Rule ["p"] [Declaration "font-family" "inherit"]]
           [("font-family", [JString "Arial"; JString "Arial"; JString "inherit"])]
           [] ["Arial"; "Arial"; "inherit"].

(** [a{color:#000\9} b{color:#000}] *)
Definition hack_doc : StyleGuide :=
  document [Rule ["a"] [Declaration "color" "#000\9"];
            Rule ["b"] [Declaration "color" "#000"]]
           [("color", [JString "#000\9"; JString "#000"])]
           [] [].

(** [html{font-size:62.5%}] *)
Definition percent_doc : StyleGuide :=
  document [Rule ["html"] [Declaration "font-size" "62.5%"]]
           [("font-size", [JString "62.5%"])] ["62.5%"] [].

(** [html{font-size:calc(100% + 2px)}] *)
Definition calc_doc : StyleGuide :=
  document [Rule ["html"] [Declaration "font-size" "calc(100% + 2px)"]]
           [("font-size", [JString "calc(100% + 2px)"])] ["calc(100% + 2px)"] [].


(** [a{margin:1em  2em} b{padding:3px<TAB>4px}]: two blanks in the first
    value, a tabulator (code unit 9) in the second. *)
Definition blanks_doc : StyleGuide :=
  document [Rule ["a"] [Declaration "margin" "1em  2em"];
            Rule ["b"] [Declaration "padding" ("3px" ++ String "009" "4px")]]
           [("margin", [JString "1em  2em"]);
            ("padding", [JString ("3px" ++ String "009" "4px")])] [] [].

(** [.a{font-size:2rem} .b{font-size:24px} html{font-size:62.5%}] *)
Definition scale_doc : StyleGuide :=
  document [Rule [".a"] [Declaration "font-size" "2rem"];
            Rule [".b"] [Declaration "font-size" "24px"];
            Rule ["html"] [Declaration "font-size" "62.5%"]]
           [("font-size", [JString "2rem"; JString "24px"; JString "62.5%"])]
           ["2rem"; "24px"; "62.5%"] [].




(** [@font-face{src:url(a.woff)} @font-face{font-family:B;src:url(b.woff)}] *)
Definition nameless_doc : StyleGuide :=
  document [FontFace [Declaration "src" "url(a.woff)"];
            FontFace [Declaration "font-family" "B"; Declaration "src" "url(b.woff)"]]
           [] [] [].


(** ** Reading the style sheets *)

Section Ingestion.

(** [fs.readFileSync(file, 'utf8')]: the text of the file, or nothing when
    the call raises (a file that is missing or cannot be read). *)
Variable readFileSync : string -> option string.

(** [files.map(function(file) {...})] with the callback of [getCSS]: the
    first call that raises ends the loop. *)
Fixpoint read_files (files : list string) : option (list string) :=
  match files with
  | [] => Some []
  | file :: files' =>
      match readFileSync file with
      | None => None
      | Some text =>
          match read_files files' with
          | None => None
          | Some texts => Some (text :: texts)
          end
      end
  end.

Definition getCSS (files : list string) : option string :=
  option_map (String.concat EmptyString) (read_files files).

End Ingestion.

(** ** Notions of the further properties *)

(** A character of a URL that the pattern of [getFontUrls] gives no meaning
    to: not a line terminator, a quote, [?] or [)]. *)
Definition plain_char (c : ascii) : bool :=
  is_dot c && negb (is_quote c) && negb (Ascii.eqb "?" c) && negb (Ascii.eqb ")" c).

(** A value without a sign, a digit or a dot, such as a keyword. *)
Definition is_keyword (item : string) : bool :=
  all_chars (fun c => negb (unit_char c)) item.

(** The key under which [getFontUrls] stores the URL of a rule. *)
Definition family_key (r : rule) : string :=
  Obj.key_of (last_value "font-family" (declarations_of r)).

(** The elements of [l], at the end of [seen ++ l], that [unique] keeps. *)
Definition unique_after {A : Type} (eqb : A -> A -> bool) (seen l : list A) : list A :=
  Arr.filteri_from (Z.of_nat (List.length seen))
    (fun element index => Arr.indexOf eqb (seen ++ l)%list element =? index) l.

(** A file system with the two files [a.css] and [b.css]. *)
Definition two_files (path : string) : option string :=
  if String.eqb path "a.css" then Some "a{color:red}"
  else if String.eqb path "b.css" then Some "b{color:blue}"
  else None.

(** A size without a number: no digit occurs in it, and no [I], the head
    of [Infinity]. *)
Definition numberless (size : string) : bool :=
  all_chars (fun c => negb (Str.is_digit c) && negb (Ascii.eqb c "I")) size.

(** A document whose only properties are [margin] and [padding]. *)
Definition spacing_doc (margin padding : list string) : StyleGuide :=
  document [] [("margin", map JString margin); ("padding", map JString padding)] [] [].

(** ** Numbers in their order *)

(** The pixel magnitude [sortScalableFontSizes] compares a size by. *)
Definition pixels (rootFontSize : Num.num) (size : string) : Num.num :=
  Num.mul (Num.parseFloat size)
          (if 0 <=? Str.indexOf size "rem" then rootFontSize else Num.of_Z 1).


(** The finite numbers of the model are multiples of [2^-1074]; a number
    value has no exponent below. *)
Definition representable (x : Num.num) : Prop :=
  match x with
  | S754_finite _ _ e => -1074 <= e
  | _ => True
  end.

(** The place of a number among the infinities, and the multiple of
    [2^-1074] it is. *)
Definition num_class (x : Num.num) : Z :=
  match x with
  | S754_infinity true => -1
  | S754_infinity false => 1
  | _ => 0
  end.

Definition num_scaled (x : Num.num) : Z :=
  match x with
  | S754_finite s m e => cond_Zopp s (Zpos m * 2 ^ (e + 1074))
  | _ => 0
  end.

(** The order of the numbers that are not NaN. *)
Definition num_le (x y : Num.num) : Prop :=
  num_class x < num_class y \/ (num_class x = num_class y /\ num_scaled x <= num_scaled y).

(** * Properties *)

(** ** Arrays: [indexOf], [unique], [sort] *)

Section ArrayFacts.
Context {A : Type}.
Variable eqb : A -> A -> bool.
Hypothesis eqb_spec : forall x y, eqb x y = true <-> x = y.

Lemma index_from_absent (i : Z) (x : A) (l : list A) :
  ~ In x l -> Arr.index_from eqb i x l = -1.
Proof.
  revert i; induction l as [|y l IH]; intros i Hx; simpl; [reflexivity|].
  destruct (eqb y x) eqn:E.
  - apply eqb_spec in E. exfalso. apply Hx. left. exact E.
  - apply IH. intro H. apply Hx. right. exact H.
Qed.

Lemma index_from_present (i : Z) (x : A) (l : list A) :
  In x l -> i <= Arr.index_from eqb i x l < i + Z.of_nat (List.length l).
Proof.
  revert i; induction l as [|y l IH]; intros i Hx; [destruct Hx|].
  simpl Arr.index_from. simpl List.length.
  destruct (eqb y x) eqn:E; [lia|].
  destruct Hx as [Hx|Hx].
  - assert (eqb y x = true) by (apply eqb_spec; exact Hx). congruence.
  - specialize (IH (i + 1) Hx). lia.
Qed.

Lemma index_from_app_absent (i : Z) (x : A) (l1 l2 : list A) :
  ~ In x l1 ->
  Arr.index_from eqb i x (l1 ++ l2) = Arr.index_from eqb (i + Z.of_nat (List.length l1)) x l2.
Proof.
  revert i; induction l1 as [|y l1 IH]; intros i Hx; simpl app; simpl List.length.
  - f_equal. lia.
  - simpl Arr.index_from. destruct (eqb y x) eqn:E.
    + apply eqb_spec in E. exfalso. apply Hx. left. exact E.
    + rewrite IH by (intro H; apply Hx; right; exact H). f_equal. lia.
Qed.

Lemma index_from_app_present (i : Z) (x : A) (l1 l2 : list A) :
  In x l1 -> Arr.index_from eqb i x (l1 ++ l2) = Arr.index_from eqb i x l1.
Proof.
  revert i; induction l1 as [|y l1 IH]; intros i Hx; [destruct Hx|].
  simpl. destruct (eqb y x) eqn:E; [reflexivity|].
  destruct Hx as [Hx|Hx].
  - assert (eqb y x = true) by (apply eqb_spec; exact Hx). congruence.
  - apply IH. exact Hx.
Qed.

Lemma indexOf_negative (l : list A) (x : A) :
  (Arr.indexOf eqb l x <? 0) = true <-> ~ In x l.
Proof.
  unfold Arr.indexOf. split.
  - intros H Hin. apply Z.ltb_lt in H.
    pose proof (index_from_present 0 x l Hin). lia.
  - intro H. rewrite index_from_absent by exact H. reflexivity.
Qed.

(** An element at position [List.length seen] of [seen ++ l] passes the test of
    [unique] exactly when it does not occur in [seen]. *)
Lemma unique_from (seen l : list A) :
  let r := Arr.filteri_from (Z.of_nat (List.length seen))
             (fun element index => Arr.indexOf eqb (seen ++ l) element =? index) l in
  NoDup r /\ forall x, In x r <-> In x l /\ ~ In x seen.
Proof.
  revert seen; induction l as [|y l IH]; intro seen; cbv zeta.
  - simpl. split; [constructor | intro x; tauto].
  - simpl Arr.filteri_from.
    assert (Hseen : seen ++ y :: l = (seen ++ [y]) ++ l) by (rewrite <- app_assoc; reflexivity).
    assert (Hlen : Z.of_nat (List.length seen) + 1 = Z.of_nat (List.length (seen ++ [y])))
      by (rewrite length_app; simpl; lia).
    specialize (IH (seen ++ [y])). cbv zeta in IH.
    rewrite <- Hseen, <- Hlen in IH. destruct IH as [IHnd IHin].
    assert (Hin_seen : forall x, In x (seen ++ [y]) <-> In x seen \/ x = y).
    { intro x. rewrite in_app_iff. simpl. intuition congruence. }
    destruct (Arr.indexOf eqb (seen ++ y :: l) y =? Z.of_nat (List.length seen)) eqn:E.
    + assert (Hy : ~ In y seen).
      { intro Hy. apply Z.eqb_eq in E. unfold Arr.indexOf in E.
        rewrite index_from_app_present in E by exact Hy.
        pose proof (index_from_present 0 y seen Hy). lia. }
      split.
      * constructor; [|exact IHnd]. intro H. apply IHin in H.
        destruct H as [_ H]. apply H. apply Hin_seen. right. reflexivity.
      * intro x. simpl. rewrite IHin, Hin_seen. split.
        -- intros [H|[H1 H2]]; [subst x; tauto | tauto].
        -- intros [[H|H] H2]; [left; exact H |].
           destruct (eqb y x) eqn:Eyx.
           ++ left. apply eqb_spec. exact Eyx.
           ++ right. split; [exact H|]. intros [H3|H3]; [tauto|].
              subst x. assert (eqb y y = true) by (apply eqb_spec; reflexivity). congruence.
    + assert (Hy : In y seen).
      { destruct (in_dec (fun a b => match eqb a b as c return eqb a b = c -> {a = b} + {a <> b} with
                                     | true => fun H => left (proj1 (eqb_spec a b) H)
                                     | false => fun H => right (fun K => eq_ind true (fun c => c = false -> False) (fun X => Bool.diff_true_false X) _ (eq_sym (proj2 (eqb_spec a b) K)) H)
                                     end eq_refl) y seen) as [H|H]; [exact H|].
        exfalso. apply Z.eqb_neq in E. apply E. unfold Arr.indexOf.
        rewrite index_from_app_absent by exact H. simpl.
        assert (eqb y y = true) by (apply eqb_spec; reflexivity).
        rewrite H0. lia. }
      split; [exact IHnd|].
      intro x. rewrite IHin, Hin_seen. simpl. split.
      * intros [H1 H2]. tauto.
      * intros [[H|H] H2]; [subst x; tauto|]. split; [exact H|].
        intros [H3|H3]; [tauto | subst x; tauto].
Qed.

Lemma unique_NoDup (l : list A) : NoDup (unique eqb l).
Proof. exact (proj1 (unique_from [] l)). Qed.

Lemma unique_In (l : list A) (x : A) : In x (unique eqb l) <-> In x l.
Proof.
  pose proof (proj2 (unique_from [] l) x) as H. cbv zeta in H. simpl in H.
  unfold unique, Arr.filteri. rewrite H. tauto.
Qed.

End ArrayFacts.

Section SortFacts.
Context {A : Type}.
Variable after : A -> A -> bool.

Lemma insert_perm (x : A) (l : list A) : Permutation (Arr.insert after x l) (x :: l).
Proof.
  induction l as [|y l IH]; simpl; [apply Permutation_refl|].
  destruct (after x y).
  - eapply Permutation_trans; [apply perm_skip; exact IH | apply perm_swap].
  - apply Permutation_refl.
Qed.

Lemma sort_perm (l : list A) : Permutation (Arr.sort after l) l.
Proof.
  induction l as [|x l IH]; simpl; [constructor|].
  eapply Permutation_trans; [apply insert_perm | apply perm_skip; exact IH].
Qed.

Lemma sort_In (l : list A) (x : A) : In x (Arr.sort after l) <-> In x l.
Proof.
  split; apply Permutation_in; [apply sort_perm | apply Permutation_sym, sort_perm].
Qed.

Lemma sort_NoDup (l : list A) : NoDup l -> NoDup (Arr.sort after l).
Proof. apply Permutation_NoDup, Permutation_sym, sort_perm. Qed.

(** When the comparison function never puts each of two elements after the
    other, neighbours in the result are in order. *)
Hypothesis after_asym : forall x y, after x y = true -> after y x = false.

Lemma insert_sorted (x : A) (l : list A) :
  Sorted (fun a b => after a b = false) l ->
  Sorted (fun a b => after a b = false) (Arr.insert after x l).
Proof.
  induction l as [|y l IH]; intro Hs; simpl.
  - repeat constructor.
  - destruct (after x y) eqn:E.
    + inversion Hs as [|? ? Hs' Hhd]; subst.
      constructor; [apply IH; exact Hs'|].
      destruct l as [|z l]; simpl.
      * constructor. apply after_asym. exact E.
      * destruct (after x z); constructor.
        -- inversion Hhd; assumption.
        -- apply after_asym. exact E.
    + constructor; [exact Hs|]. constructor. exact E.
Qed.

Lemma sort_sorted (l : list A) : Sorted (fun a b => after a b = false) (Arr.sort after l).
Proof.
  induction l as [|x l IH]; simpl; [constructor|]. apply insert_sorted. exact IH.
Qed.

End SortFacts.

(** ** Strings *)

Lemma ascii_compare_refl (a : ascii) : Ascii.compare a a = Eq.
Proof. unfold Ascii.compare. apply N.compare_refl. Qed.

Lemma compare_lt_trans (a b c : string) :
  String.compare a b = Lt -> String.compare b c = Lt -> String.compare a c = Lt.
Proof.
  revert b c; induction a as [|x a IH]; intros [|y b] [|z c]; simpl; try congruence.
  unfold Ascii.compare.
  destruct (N.compare_spec (N_of_ascii x) (N_of_ascii y)) as [Exy|Exy|Exy]; try congruence;
    destruct (N.compare_spec (N_of_ascii y) (N_of_ascii z)) as [Eyz|Eyz|Eyz]; try congruence;
    intros H1 H2.
  - rewrite Exy, Eyz, N.compare_refl. eapply IH; eassumption.
  - rewrite Exy. apply N.compare_lt_iff in Eyz. rewrite Eyz. reflexivity.
  - rewrite <- Eyz. apply N.compare_lt_iff in Exy. rewrite Exy. reflexivity.
  - assert (H : (N_of_ascii x < N_of_ascii z)%N) by lia.
    apply N.compare_lt_iff in H. rewrite H. reflexivity.
Qed.

Lemma string_after_asym (a b : string) :
  string_after a b = true -> string_after b a = false.
Proof.
  unfold string_after, String.ltb. rewrite (String.compare_antisym a b).
  destruct (String.compare b a); simpl; congruence.
Qed.

Lemma not_after_le (a b : string) :
  string_after a b = false -> a <> b -> String.compare a b = Lt.
Proof.
  unfold string_after, String.ltb. rewrite (String.compare_antisym b a).
  destruct (String.compare a b) eqn:E; simpl; try congruence.
  intros _ H. exfalso. apply H. apply String.compare_eq_iff. exact E.
Qed.

(** A duplicate-free list sorted by the default order is strictly ascending. *)
Lemma sort_ascending (l : list string) :
  NoDup l -> ascending (Arr.sort string_after l).
Proof.
  intro Hnd. unfold ascending.
  assert (Hs : Sorted (fun a b => String.compare a b = Lt) (Arr.sort string_after l)).
  { pose proof (sort_sorted string_after string_after_asym l) as Hs.
    pose proof (sort_NoDup string_after l Hnd) as Hnd'.
    induction Hs as [|x r Hs IH Hhd]; [constructor|].
    inversion Hnd' as [|? ? Hx Hr]; subst.
    constructor; [apply IH; exact Hr|].
    destruct Hhd as [|y r' Hxy]; constructor.
    apply not_after_le; [exact Hxy|]. intro E. subst y. apply Hx. left. reflexivity. }
  apply Sorted_StronglySorted; [|exact Hs].
  intros a b c. apply compare_lt_trans.
Qed.

Lemma prefix_iff (p s : string) :
  String.prefix p s = true <-> exists b, s = (p ++ b)%string.
Proof.
  revert s; induction p as [|c p IH]; intro s; simpl.
  - destruct s; (split; [intros _; eexists; reflexivity | reflexivity]).
  - destruct s as [|d s]; simpl.
    + split; [discriminate | intros [b H]; discriminate].
    + destruct (ascii_dec c d) as [E|E].
      * subst d. rewrite IH. split; intros [b H]; exists b; congruence.
      * split; [discriminate | intros [b H]; congruence].
Qed.

Lemma index_from_range (i : Z) (pat s : string) :
  Str.index_from i pat s = -1 \/ i <= Str.index_from i pat s.
Proof.
  revert i; induction s as [|c s IH]; intro i; cbn [Str.index_from].
  - destruct (String.prefix pat ""); [right; lia | left; reflexivity].
  - destruct (String.prefix pat (String c s)); [right; lia|].
    destruct (IH (i + 1)); [left; assumption | right; lia].
Qed.

Lemma index_from_occurs (i : Z) (pat s : string) :
  0 <= i -> (0 <= Str.index_from i pat s <-> occurs pat s).
Proof.
  revert i; induction s as [|c s IH]; intros i Hi; cbn [Str.index_from].
  - destruct (String.prefix pat "") eqn:E.
    + split; [intros _ | intros _; lia].
      apply prefix_iff in E. destruct E as [b E]. exists EmptyString, b. exact E.
    + split; [lia|]. intros [a [b H]]. exfalso.
      destruct a; [|discriminate].
      assert (String.prefix pat "" = true) by (apply prefix_iff; exists b; exact H). congruence.
  - destruct (String.prefix pat (String c s)) eqn:E.
    + split; [intros _ | intros _; lia].
      apply prefix_iff in E. destruct E as [b E]. exists EmptyString, b. exact E.
    + rewrite IH by lia. split.
      * intros [a [b H]]. exists (String c a), b. simpl. congruence.
      * intros [a [b H]]. destruct a as [|d a].
        -- assert (String.prefix pat (String c s) = true) by (apply prefix_iff; exists b; exact H).
           congruence.
        -- exists a, b. simpl in H. congruence.
Qed.

Lemma indexOf_occurs (s pat : string) :
  (0 <=? Str.indexOf s pat) = true <-> occurs pat s.
Proof.
  unfold Str.indexOf. rewrite Z.leb_le. apply index_from_occurs. lia.
Qed.

Lemma indexOf_absent (s pat : string) :
  (Str.indexOf s pat <? 0) = true <-> ~ occurs pat s.
Proof.
  rewrite <- indexOf_occurs, Z.ltb_lt. rewrite Z.leb_le. lia.
Qed.

Lemma occurs_char (c : ascii) (s : string) :
  occurs (String c EmptyString) s <-> Str.has_char c s = true.
Proof.
  induction s as [|d s IH]; simpl.
  - split; [|discriminate]. intros [[|? ?] [b H]]; discriminate.
  - rewrite orb_true_iff, <- IH. split.
    + intros [[|x a] [b H]]; simpl in H.
      * left. apply Ascii.eqb_eq. congruence.
      * right. exists a, b. simpl. congruence.
    + intros [H|[a [b H]]].
      * apply Ascii.eqb_eq in H. subst d. exists EmptyString, s. reflexivity.
      * exists (String d a), b. simpl in *. congruence.
Qed.

Lemma indexOf_zero_iff (s pat : string) :
  (Str.indexOf s pat =? 0) = String.prefix pat s.
Proof.
  unfold Str.indexOf. destruct s as [|c s]; cbn [Str.index_from].
  - destruct (String.prefix pat ""); reflexivity.
  - destruct (String.prefix pat (String c s)); [reflexivity|].
    destruct (index_from_range (0 + 1) pat s) as [H|H]; rewrite ?H; [reflexivity|].
    apply Z.eqb_neq. lia.
Qed.

(** *** [split] and [join] *)


Lemma split_no_sep (sep : ascii) (s piece : string) :
  In piece (Str.split sep s) -> Str.has_char sep piece = false.
Proof.
  revert piece; induction s as [|c s IH]; intros piece; simpl.
  - intros [H|[]]. subst piece. reflexivity.
  - destruct (Ascii.eqb c sep) eqn:E.
    + intros [H|H]; [subst piece; reflexivity | apply IH; exact H].
    + destruct (Str.split sep s) as [|p ps] eqn:Es.
      * intros [H|[]]. subst piece. simpl. rewrite E. reflexivity.
      * intros [H|H].
        -- subst piece. simpl. rewrite E. apply IH. left. reflexivity.
        -- apply IH. right. exact H.
Qed.

Lemma split_without_sep (sep : ascii) (s : string) :
  Str.has_char sep s = false -> Str.split sep s = [s].
Proof.
  induction s as [|c s IH]; simpl; [reflexivity|].
  intro H. apply orb_false_iff in H. destruct H as [H1 H2].
  rewrite H1, (IH H2). reflexivity.
Qed.


(** *** [trim] *)

Lemma trim_start_head (s : string) :
  match Str.trim_start s with
  | EmptyString => True
  | String c _ => Str.is_space c = false
  end.
Proof.
  induction s as [|c s IH]; simpl; [exact I|].
  destruct (Str.is_space c) eqn:E; [exact IH | exact E].
Qed.

Lemma trim_end_idem (s : string) : Str.trim_end (Str.trim_end s) = Str.trim_end s.
Proof.
  induction s as [|c s IH]; simpl; [reflexivity|].
  destruct (Str.is_space c && Str.is_empty (Str.trim_end s)) eqn:E; [reflexivity|].
  simpl. rewrite IH, E. reflexivity.
Qed.

Lemma trim_start_fixed (s : string) :
  match s with
  | EmptyString => True
  | String c _ => Str.is_space c = false
  end -> Str.trim_start (Str.trim_end s) = Str.trim_end s.
Proof.
  destruct s as [|c s]; simpl; [reflexivity|].
  intro H. rewrite H. simpl. rewrite H. reflexivity.
Qed.

Lemma trim_idem (s : string) : Str.trim (Str.trim s) = Str.trim s.
Proof.
  unfold Str.trim.
  rewrite (trim_start_fixed (Str.trim_start s) (trim_start_head s)).
  apply trim_end_idem.
Qed.

Lemma trim_start_has_char (c : ascii) (s : string) :
  Str.has_char c s = false -> Str.has_char c (Str.trim_start s) = false.
Proof.
  induction s as [|d s IH]; simpl; [reflexivity|].
  intro H. destruct (Str.is_space d); [|exact H].
  apply orb_false_iff in H. apply IH. tauto.
Qed.

Lemma trim_end_has_char (c : ascii) (s : string) :
  Str.has_char c s = false -> Str.has_char c (Str.trim_end s) = false.
Proof.
  induction s as [|d s IH]; simpl; [reflexivity|].
  intro H. apply orb_false_iff in H. destruct H as [H1 H2].
  destruct (Str.is_space d && Str.is_empty (Str.trim_end s)); [reflexivity|].
  simpl. rewrite H1. apply IH. exact H2.
Qed.

Lemma trim_has_char (c : ascii) (s : string) :
  Str.has_char c s = false -> Str.has_char c (Str.trim s) = false.
Proof.
  intro H. unfold Str.trim. apply trim_end_has_char, trim_start_has_char. exact H.
Qed.

(** ** The pattern of hexadecimal colours *)

Lemma hex_digit_spec (d : ascii) : hex_digit d = existsb (Ascii.eqb d) hex_chars.
Proof. destruct d as [[] [] [] [] [] [] [] []]; vm_compute; reflexivity. Qed.

Lemma is_hex_color_hash (body : string) :
  is_hex_color (String "#" body) =
  ((String.length body =? 3)%nat || (String.length body =? 6)%nat)
  && forallb hex_digit (list_ascii_of_string body).
Proof.
  simpl. f_equal.
  induction (list_ascii_of_string body) as [|d l IH]; simpl; [reflexivity|].
  rewrite IH. f_equal. symmetry. apply hex_digit_spec.
Qed.

Lemma is_hex_color_other (a : ascii) (s : string) :
  a <> "#"%char -> is_hex_color (String a s) = false.
Proof.
  intro H. destruct a as [[] [] [] [] [] [] [] []]; try reflexivity.
  exfalso. apply H. reflexivity.
Qed.

Lemma hex_exec_later (s : string) (i : nat) :
  Regex.exec_from hexColorRegex (S i) s = None.
Proof.
  revert i; induction s as [|c s IH]; intro i; [reflexivity|].
  cbn -[hex_digit]. apply IH.
Qed.

Lemma hex_test_other (a : ascii) (s : string) :
  a <> "#"%char -> Regex.test hexColorRegex (String a s) = false.
Proof.
  intro H. unfold Regex.test, Regex.exec.
  assert (E : Ascii.eqb "#" a = false) by (apply Ascii.eqb_neq; congruence).
  cbn -[hex_digit Ascii.eqb]. rewrite E. cbn -[hex_digit Ascii.eqb].
  rewrite hex_exec_later. reflexivity.
Qed.

Lemma hex_test_hash (body : string) :
  Regex.test hexColorRegex (String "#" body) =
  ((String.length body =? 3)%nat || (String.length body =? 6)%nat)
  && forallb hex_digit (list_ascii_of_string body).
Proof.
  unfold Regex.test, Regex.exec.
  destruct body as [|a1 [|a2 [|a3 [|a4 [|a5 [|a6 [|a7 s]]]]]]];
    cbn -[hex_digit]; rewrite ?hex_exec_later;
    repeat match goal with
           | |- context [hex_digit ?a] => destruct (hex_digit a); cbn -[hex_digit]
           end;
    rewrite ?hex_exec_later; reflexivity.
Qed.

(** The pattern accepts exactly [#] followed by three or six hexadecimal
    digits. *)
Lemma hex_test_spec (c : string) : Regex.test hexColorRegex c = is_hex_color c.
Proof.
  destruct c as [|a s]; [reflexivity|].
  destruct (ascii_dec a "#") as [E|E].
  - subst a. rewrite hex_test_hash, is_hex_color_hash. reflexivity.
  - rewrite hex_test_other, is_hex_color_other by exact E. reflexivity.
Qed.

Lemma isHackyColor_string (c : string) : isHackyColor (JString c) = Normal (is_hacky c).
Proof.
  unfold isHackyColor. simpl receiver. unfold bind.
  rewrite indexOf_zero_iff, hex_test_spec.
  destruct c as [|a s]; [reflexivity|].
  destruct (ascii_dec a "#") as [E|E].
  - subst a. destruct s; reflexivity.
  - assert (H : String.prefix "#" (String a s) = false).
    { destruct (String.prefix "#" (String a s)) eqn:P; [|reflexivity].
      apply prefix_iff in P. destruct P as [b P]. simpl in P. congruence. }
    rewrite H. simpl negb. cbv iota.
    destruct a as [[] [] [] [] [] [] [] []]; try reflexivity.
    exfalso. apply E. reflexivity.
Qed.

(** ** Colours *)

Lemma jsval_eqb_spec (a b : jsval) : jsval_eqb a b = true <-> a = b.
Proof.
  destruct a as [|s], b as [|t]; simpl; try (split; congruence).
  rewrite String.eqb_eq. split; congruence.
Qed.

Lemma string_eqb_spec (a b : string) : String.eqb a b = true <-> a = b.
Proof. apply String.eqb_eq. Qed.

Lemma not_excluded_spec (v : jsval) : not_excluded v = true <-> ~ In v excludedValues.
Proof. unfold not_excluded. apply indexOf_negative. exact jsval_eqb_spec. Qed.

Lemma filterM_hacky (l : list jsval) :
  Forall (fun v => truthy v = true) l ->
  Arr.filterM (fun color => hacky <- isHackyColor color ;; Normal (negb hacky)) l
  = Normal (filter (fun v => negb (hacky_value v)) l).
Proof.
  induction 1 as [|v l Hv _ IH]; [reflexivity|].
  cbn [Arr.filterM filter]. rewrite IH.
  destruct v as [|c]; [discriminate|].
  rewrite isHackyColor_string. reflexivity.
Qed.

Lemma filter_truthy_all (l : list jsval) : Forall (fun v => truthy v = true) (filter truthy l).
Proof. apply Forall_forall. intros v H. apply filter_In in H. tauto. Qed.

Lemma colors_run (l : list jsval) :
  (if (List.length (filter truthy l) =? 0)%nat then Normal (filter truthy l)
   else colors <- Arr.filterM (fun color => hacky <- isHackyColor color ;; Normal (negb hacky))
                              (filter truthy l) ;;
        Normal (Arr.sort default_after (filter not_excluded (unique jsval_eqb colors))))
  = Normal (Arr.sort default_after
              (filter not_excluded
                 (unique jsval_eqb (filter (fun v => negb (hacky_value v)) (filter truthy l))))).
Proof.
  rewrite filterM_hacky by apply filter_truthy_all.
  destruct (filter truthy l); reflexivity.
Qed.

Lemma getColorColors_run (this : StyleGuide) :
  getColorColors this = Normal (colors_of this "color").
Proof. apply colors_run. Qed.

Lemma getBackgroundColors_run (this : StyleGuide) :
  getBackgroundColors this = Normal (colors_of this "background-color").
Proof. apply colors_run. Qed.

Lemma getColors_run (this : StyleGuide) :
  getColors this =
  Normal (Arr.sort default_after
            (unique jsval_eqb (colors_of this "color" ++ colors_of this "background-color"))).
Proof.
  unfold getColors. rewrite getColorColors_run, getBackgroundColors_run. reflexivity.
Qed.

Lemma colors_of_In (this : StyleGuide) (name : string) (v : jsval) :
  In v (colors_of this name) <->
  In v (values_of this name) /\ truthy v = true /\ hacky_value v = false
  /\ ~ In v excludedValues.
Proof.
  unfold colors_of.
  rewrite sort_In, filter_In, (unique_In jsval_eqb jsval_eqb_spec), !filter_In,
    not_excluded_spec, negb_true_iff.
  tauto.
Qed.

Lemma colors_of_NoDup (this : StyleGuide) (name : string) : NoDup (colors_of this name).
Proof.
  unfold colors_of. apply sort_NoDup, NoDup_filter, unique_NoDup. exact jsval_eqb_spec.
Qed.

Lemma strings_of_map (l : list jsval) : Forall is_string l -> l = map JString (strings_of l).
Proof.
  induction 1 as [|v l Hv _ IH]; [reflexivity|].
  destruct v as [|s]; [destruct Hv|]. simpl. congruence.
Qed.

Lemma strings_of_In (l : list jsval) (s : string) : In s (strings_of l) <-> In (JString s) l.
Proof.
  unfold strings_of. rewrite in_flat_map. split.
  - intros [[|t] [H1 H2]]; simpl in H2; [tauto|]. destruct H2 as [H2|[]]. congruence.
  - intro H. exists (JString s). simpl. tauto.
Qed.

Lemma strings_of_NoDup (l : list jsval) : NoDup l -> NoDup (strings_of l).
Proof.
  induction 1 as [|v l Hv _ IH]; [constructor|].
  destruct v as [|s]; simpl; [exact IH|].
  constructor; [|exact IH]. rewrite strings_of_In. exact Hv.
Qed.

Lemma insert_strings (s : string) (l : list string) :
  Arr.insert default_after (JString s) (map JString l)
  = map JString (Arr.insert string_after s l).
Proof.
  induction l as [|x l IH]; simpl; [reflexivity|].
  unfold string_after at 1. destruct (String.ltb x s); simpl; congruence.
Qed.

Lemma sort_strings (l : list jsval) :
  Forall is_string l ->
  Arr.sort default_after l = map JString (Arr.sort string_after (strings_of l)).
Proof.
  induction 1 as [|v l Hv _ IH]; [reflexivity|].
  destruct v as [|s]; [destruct Hv|]. simpl. rewrite IH. apply insert_strings.
Qed.

Lemma strings_of_JString (l : list string) : strings_of (map JString l) = l.
Proof. induction l as [|x l IH]; simpl; congruence. Qed.

(** A sorted list of distinct strings is a list of strings in strictly
    ascending order. *)
Lemma sort_default_ascending (l : list jsval) :
  Forall is_string l -> NoDup l ->
  Forall is_string (Arr.sort default_after l)
  /\ ascending (strings_of (Arr.sort default_after l)).
Proof.
  intros Hs Hnd. rewrite (sort_strings l Hs). split.
  - apply Forall_forall. intros v Hv. apply in_map_iff in Hv.
    destruct Hv as [s [E _]]. subst v. exact I.
  - rewrite strings_of_JString. apply sort_ascending, strings_of_NoDup, Hnd.
Qed.

Lemma truthy_is_string (v : jsval) : truthy v = true -> is_string v.
Proof. destruct v; simpl; [discriminate | trivial]. Qed.

Lemma colors_of_strings (this : StyleGuide) (name : string) :
  Forall is_string (colors_of this name)
  /\ ascending (strings_of (colors_of this name)).
Proof.
  unfold colors_of. apply sort_default_ascending.
  - apply Forall_forall. intros v Hv.
    apply filter_In in Hv. destruct Hv as [Hv _].
    apply (proj1 (unique_In jsval_eqb jsval_eqb_spec _ _)) in Hv.
    apply filter_In in Hv. destruct Hv as [Hv _].
    apply filter_In in Hv. apply truthy_is_string. tauto.
  - apply NoDup_filter, unique_NoDup. exact jsval_eqb_spec.
Qed.

(** ** Objects *)

Section ObjFacts.
Context {V : Type}.

Lemma set_keys (o : Obj.obj V) (k : string) (v : V) (k' : string) :
  In k' (map fst (Obj.set o k v)) <-> In k' (map fst o) \/ k' = k.
Proof.
  induction o as [|[k0 v0] o IH]; simpl.
  - intuition congruence.
  - destruct (String.eqb_spec k0 k) as [E|E]; simpl.
    + subst k0. intuition congruence.
    + rewrite IH. tauto.
Qed.

Lemma set_NoDup (o : Obj.obj V) (k : string) (v : V) :
  NoDup (map fst o) -> NoDup (map fst (Obj.set o k v)).
Proof.
  induction o as [|[k0 v0] o IH]; simpl; intro H.
  - constructor; [tauto | constructor].
  - inversion H as [|? ? Hk0 Ho]; subst.
    destruct (String.eqb_spec k0 k) as [E|E]; simpl.
    + subst k0. constructor; assumption.
    + constructor; [|apply IH; exact Ho].
      rewrite set_keys. intros [H1|H1]; [tauto | congruence].
Qed.

Lemma get_set_same (o : Obj.obj V) (k : string) (v : V) : Obj.get (Obj.set o k v) k = Some v.
Proof.
  induction o as [|[k0 v0] o IH]; simpl.
  - rewrite String.eqb_refl. reflexivity.
  - destruct (String.eqb_spec k0 k) as [E|E]; simpl.
    + rewrite String.eqb_refl. reflexivity.
    + destruct (String.eqb_spec k0 k); [contradiction | exact IH].
Qed.

Lemma get_set_other (o : Obj.obj V) (k k' : string) (v : V) :
  k' <> k -> Obj.get (Obj.set o k v) k' = Obj.get o k'.
Proof.
  intro Hk. induction o as [|[k0 v0] o IH]; simpl.
  - destruct (String.eqb_spec k k'); [congruence | reflexivity].
  - destruct (String.eqb_spec k0 k) as [E|E]; simpl.
    + subst k0. destruct (String.eqb_spec k k'); [congruence | reflexivity].
    + destruct (String.eqb_spec k0 k'); [reflexivity | exact IH].
Qed.

Lemma assign_NoDup (o : Obj.obj V) (k : string) (v : V) :
  NoDup (map fst o) -> NoDup (map fst (Obj.assign o k v)).
Proof.
  unfold Obj.assign. destruct (String.eqb k "__proto__"); [trivial | apply set_NoDup].
Qed.

Lemma keys_In (o : Obj.obj V) (k : string) : In k (Obj.keys o) <-> In k (map fst o).
Proof.
  unfold Obj.keys. rewrite in_app_iff, sort_In, !filter_In.
  destruct (Obj.is_array_index k); simpl; intuition congruence.
Qed.

Lemma keys_NoDup (o : Obj.obj V) : NoDup (map fst o) -> NoDup (Obj.keys o).
Proof.
  intro H. unfold Obj.keys. apply NoDup_app.
  - apply sort_NoDup, NoDup_filter, H.
  - apply NoDup_filter, H.
  - intros k H1 H2. apply sort_In in H1. apply filter_In in H1, H2.
    destruct H1 as [_ H1], H2 as [_ H2]. rewrite H1 in H2. discriminate.
Qed.

End ObjFacts.

(** ** Fonts *)

Lemma add_font_url_run (hash : Obj.obj jsval) (r : rule) :
  add_font_url hash r
  = Normal (Obj.assign hash (Obj.key_of (last_value "font-family" (declarations_of r)))
                       (url_of (declarations_of r))).
Proof.
  unfold add_font_url, url_of. fold (last_value "font-family" (declarations_of r)).
  fold (last_value "src" (declarations_of r)).
  destruct (last_value "src" (declarations_of r)) as [|u]; [reflexivity|].
  simpl receiver. unfold bind. destruct (Regex.exec urlRegex u); reflexivity.
Qed.

Lemma reduce_font_urls (l : list rule) (hash : Obj.obj jsval) :
  Arr.reduceM add_font_url l hash
  = Normal (fold_left (fun h r => Obj.assign h (Obj.key_of (last_value "font-family" (declarations_of r)))
                                             (url_of (declarations_of r))) l hash).
Proof.
  revert hash; induction l as [|r l IH]; intro hash; [reflexivity|].
  cbn [Arr.reduceM fold_left]. rewrite add_font_url_run. unfold bind. apply IH.
Qed.

Lemma getFontUrls_run (this : StyleGuide) : getFontUrls this = Normal (font_urls_of this).
Proof. apply reduce_font_urls. Qed.

Lemma fold_assign_NoDup (l : list rule) (hash : Obj.obj jsval) :
  NoDup (map fst hash) ->
  NoDup (map fst (fold_left (fun h r => Obj.assign h (Obj.key_of (last_value "font-family" (declarations_of r)))
                                                   (url_of (declarations_of r))) l hash)).
Proof.
  revert hash; induction l as [|r l IH]; intros hash H; [exact H|].
  simpl. apply IH, assign_NoDup, H.
Qed.

Lemma font_urls_NoDup (this : StyleGuide) : NoDup (map fst (font_urls_of this)).
Proof. apply fold_assign_NoDup. constructor. Qed.

Lemma fold_add_fonts (l acc : list string) :
  fold_left add_fonts l acc = acc ++ flat_map names_of l.
Proof.
  revert acc; induction l as [|f l IH]; intro acc; simpl.
  - rewrite app_nil_r. reflexivity.
  - rewrite IH. unfold add_fonts, names_of. rewrite <- app_assoc. reflexivity.
Qed.

Lemma names_of_are_names (f s : string) : In s (names_of f) -> is_name s.
Proof.
  unfold names_of. rewrite in_map_iff. intros [piece [E H]]. subst s. split.
  - apply trim_has_char. eapply split_no_sep. exact H.
  - apply trim_idem.
Qed.

Lemma names_of_name (s : string) : is_name s -> names_of s = [s].
Proof.
  intros [H1 H2]. unfold names_of. rewrite split_without_sep by exact H1.
  simpl. rewrite H2. reflexivity.
Qed.

Lemma flat_map_names (l : list string) : Forall is_name l -> flat_map names_of l = l.
Proof.
  induction 1 as [|s l Hs _ IH]; [reflexivity|].
  simpl. rewrite names_of_name by exact Hs. rewrite IH. reflexivity.
Qed.

Lemma getFontsInUse_In (this : StyleGuide) (s : string) :
  In s (getFontsInUse this) <-> exists f, In f (getFontFamilies this) /\ In s (names_of f).
Proof.
  unfold getFontsInUse. rewrite sort_In, (unique_In String.eqb string_eqb_spec), fold_add_fonts.
  simpl. rewrite in_flat_map. tauto.
Qed.

Lemma getFontsInUse_names (this : StyleGuide) : Forall is_name (getFontsInUse this).
Proof.
  apply Forall_forall. intros s H. apply getFontsInUse_In in H.
  destruct H as [f [_ H]]. eapply names_of_are_names. exact H.
Qed.

Lemma getFontsInUse_NoDup (this : StyleGuide) : NoDup (getFontsInUse this).
Proof. unfold getFontsInUse. apply sort_NoDup, unique_NoDup. exact string_eqb_spec. Qed.

(** The fonts [getFontsNotInUse] compares the keys with are those of
    [getFontsInUse]. *)
Lemma declared_fonts_In (this : StyleGuide) (s : string) :
  In s (unique String.eqb (fold_left add_fonts (getFontsInUse this) [])) <-> In s (getFontsInUse this).
Proof.
  rewrite (unique_In String.eqb string_eqb_spec), fold_add_fonts.
  rewrite flat_map_names by apply getFontsInUse_names. simpl. tauto.
Qed.

Lemma getFontsNotInUse_run (this : StyleGuide) :
  getFontsNotInUse this = Normal (fonts_not_in_use_of this).
Proof. unfold getFontsNotInUse. rewrite getFontUrls_run. reflexivity. Qed.

Lemma fonts_not_in_use_In (this : StyleGuide) (s : string) :
  In s (fonts_not_in_use_of this) <->
  In s (Obj.keys (font_urls_of this)) /\ ~ In s (getFontsInUse this).
Proof.
  unfold fonts_not_in_use_of.
  rewrite filter_In, (indexOf_negative String.eqb string_eqb_spec), declared_fonts_In.
  tauto.
Qed.

Lemma fonts_not_in_use_NoDup (this : StyleGuide) : NoDup (fonts_not_in_use_of this).
Proof. apply NoDup_filter, keys_NoDup, font_urls_NoDup. Qed.

Lemma getFonts_run (this : StyleGuide) :
  getFonts this = Normal (getFontsInUse this ++ fonts_not_in_use_of this).
Proof. unfold getFonts. rewrite getFontsNotInUse_run. reflexivity. Qed.

(** ** Spacings *)

Lemma filter_truthy_concat (l : list jsval) (x : option (list jsval)) :
  filter truthy (concat_value l x) = filter truthy (l ++ or_empty x).
Proof.
  destruct x as [l'|]; simpl; [reflexivity|].
  rewrite !filter_app. reflexivity.
Qed.

Lemma reduce_split (l : list jsval) (acc : list string) :
  Forall (fun v => truthy v = true) l ->
  Arr.reduceM (fun previous value => v <- receiver value ;; Normal (previous ++ Str.split " " v))
              l acc
  = Normal (acc ++ flat_map (Str.split " ") (strings_of l)).
Proof.
  intro H. revert acc; induction H as [|v l Hv _ IH]; intro acc; simpl.
  - rewrite app_nil_r. reflexivity.
  - destruct v as [|s]; [discriminate|]. simpl. rewrite IH, <- app_assoc. reflexivity.
Qed.

Lemma getSpacings_run (localeCompare : string -> string -> Num.num) (this : StyleGuide) :
  getSpacings localeCompare this = Normal (spacings_of localeCompare this).
Proof.
  unfold getSpacings, spacings_of, spacing_values, values_of.
  rewrite filter_truthy_concat.
  set (l := filter truthy (or_empty (Obj.get (properties (statistics this)) "margin")
                           ++ or_empty (Obj.get (properties (statistics this)) "padding"))).
  rewrite reduce_split by apply filter_truthy_all.
  destruct l; reflexivity.
Qed.

Lemma spacings_of_In (localeCompare : string -> string -> Num.num) (this : StyleGuide)
  (piece : string) :
  In piece (spacings_of localeCompare this) <->
  (exists v, In v (spacing_values this) /\ In piece (Str.split " " v))
  /\ ~ In (JString piece) excludedValues.
Proof.
  unfold spacings_of.
  rewrite <- in_rev, sort_In, filter_In, (unique_In String.eqb string_eqb_spec),
    in_flat_map, not_excluded_spec.
  tauto.
Qed.

Lemma spacings_of_NoDup (localeCompare : string -> string -> Num.num) (this : StyleGuide) :
  NoDup (spacings_of localeCompare this).
Proof.
  unfold spacings_of. apply NoDup_rev, sort_NoDup, NoDup_filter, unique_NoDup.
  exact string_eqb_spec.
Qed.

(** ** Root font size *)

Lemma pop_nil {A : Type} : @Arr.pop A [] = None.
Proof. reflexivity. Qed.

Lemma pop_last {A : Type} (l : list A) (x : A) : Arr.pop (l ++ [x]) = Some x.
Proof. unfold Arr.pop. rewrite rev_app_distr. reflexivity. Qed.

Lemma pop_map {A B : Type} (f : A -> B) (l : list A) :
  Arr.pop (map f l) = option_map f (Arr.pop l).
Proof.
  unfold Arr.pop. rewrite <- map_rev. destruct (rev l); reflexivity.
Qed.

Lemma fold_declarations (l : list rule) (acc : list declaration) :
  fold_left (fun previous declarationBlock => previous ++ declarations_of declarationBlock) l acc
  = acc ++ flat_map declarations_of l.
Proof.
  revert acc; induction l as [|r l IH]; intro acc; simpl.
  - rewrite app_nil_r. reflexivity.
  - rewrite IH, <- app_assoc. reflexivity.
Qed.

Lemma font_size_values (ds : list declaration) :
  map value_of (filter (is_declaration_of "font-size") ds)
  = flat_map (fun d => match d with
                       | Declaration property v =>
                           if String.eqb property "font-size" then [v] else []
                       | Comment _ => []
                       end) ds.
Proof.
  induction ds as [|[property v|c] ds IH]; simpl; [reflexivity| |exact IH].
  destruct (String.eqb property "font-size"); simpl; congruence.
Qed.

Lemma html_font_sizes_spec (this : StyleGuide) :
  map value_of
      (filter (is_declaration_of "font-size")
              (flat_map declarations_of (filter is_html_rule (cssAst this))))
  = html_font_sizes this.
Proof.
  unfold html_font_sizes.
  induction (cssAst this) as [|r l IH]; [reflexivity|].
  cbn [filter flat_map].
  destruct r as [[|selector [|s2 sels]] ds|ds|ty]; cbn [is_html_rule]; try exact IH.
  destruct (String.eqb selector "html").
  - cbn [flat_map declarations_of]. rewrite filter_app, map_app, IH, font_size_values.
    reflexivity.
  - exact IH.
Qed.

Lemma parse_default_font_size : Num.parseFloat defaultFontSize = Num.of_Z 16.
Proof. vm_compute. reflexivity. Qed.

Lemma has_char_indexOf (c : ascii) (s : string) :
  (0 <=? Str.indexOf s (String c EmptyString)) = Str.has_char c s.
Proof.
  destruct (Str.has_char c s) eqn:E.
  - apply indexOf_occurs, occurs_char. exact E.
  - destruct (0 <=? Str.indexOf s (String c EmptyString)) eqn:E'; [|reflexivity].
    apply indexOf_occurs, occurs_char in E'. congruence.
Qed.

Lemma getRootFontSize_run (this : StyleGuide) :
  getRootFontSize this =
  match Arr.pop (html_font_sizes this) with
  | None => "16px"
  | Some value => if Str.has_char "%" value then percent_of_default value else value
  end.
Proof.
  unfold getRootFontSize. rewrite fold_declarations. simpl app.
  rewrite <- html_font_sizes_spec, pop_map.
  destruct (Arr.pop _) as [d|]; [|reflexivity].
  simpl option_map. cbv iota beta.
  rewrite has_char_indexOf, parse_default_font_size. reflexivity.
Qed.

(** The unit of a value is what the value ends with. *)
Lemma skip_digits_suffix (s : string) : exists a, s = (a ++ skip_digits s)%string.
Proof.
  induction s as [|c s [a IH]]; simpl.
  - exists EmptyString. reflexivity.
  - destruct (Str.is_digit c).
    + exists (String c a). simpl. congruence.
    + exists EmptyString. reflexivity.
Qed.

Lemma append_assoc (a b c : string) : ((a ++ b) ++ c = a ++ (b ++ c))%string.
Proof. induction a as [|x a IH]; simpl; congruence. Qed.

Lemma unit_suffix_suffix (s : string) : exists a, s = (a ++ unit_suffix s)%string.
Proof.
  unfold unit_suffix.
  assert (H1 : exists a, s = (a ++ skip_sign s)%string).
  { destruct s as [|c s]; [exists EmptyString; reflexivity|].
    unfold skip_sign.
    destruct (ascii_dec c "+") as [E|E]; [subst c; exists "+"%string; reflexivity|].
    destruct (ascii_dec c "-") as [E'|E']; [subst c; exists "-"%string; reflexivity|].
    exists EmptyString.
    destruct c as [[] [] [] [] [] [] [] []]; try reflexivity; exfalso; auto. }
  destruct H1 as [a1 H1].
  destruct (skip_digits_suffix (skip_sign s)) as [a2 H2].
  destruct (skip_digits (skip_sign s)) as [|c t] eqn:E.
  - exists (a1 ++ a2)%string. rewrite append_assoc. congruence.
  - assert (H3 : exists a3, String c t
                            = (a3 ++ match String c t with
                                     | String "." t' => skip_digits t'
                                     | _ => String c t
                                     end)%string).
    { destruct (ascii_dec c ".") as [Ec|Ec].
      - subst c. destruct (skip_digits_suffix t) as [a3 H3].
        exists (String "." a3). simpl. congruence.
      - exists EmptyString.
        destruct c as [[] [] [] [] [] [] [] []]; try reflexivity; exfalso; auto. }
    destruct H3 as [a3 H3].
    exists (a1 ++ a2 ++ a3)%string. rewrite !append_assoc.
    rewrite <- H3, <- H2. exact H1.
Qed.

Lemma percentage_has_percent (value : string) :
  is_percentage value = true -> Str.has_char "%" value = true.
Proof.
  unfold is_percentage. rewrite andb_true_iff, String.eqb_eq. intros [_ H].
  apply occurs_char. destruct (unit_suffix_suffix value) as [a Ha].
  exists a, EmptyString. rewrite H in Ha. exact Ha.
Qed.

(** ** Numbers: the sign of a difference *)

Lemma round_aux_negative (m e : Z) (l : location) :
  Num.is_pos (binary_round_aux Num.prec Num.emax true m e l) = false.
Proof.
  unfold binary_round_aux.
  destruct (shr_fexp Num.prec Num.emax m e l) as [mrs' e'].
  destruct (shr_fexp Num.prec Num.emax _ e' loc_Exact) as [mrs'' e''].
  destruct (shr_m mrs''); [reflexivity| |reflexivity].
  destruct (e'' <=? Num.emax - Num.prec); reflexivity.
Qed.

Lemma round_negative (m : positive) (e : Z) :
  Num.is_pos (binary_round Num.prec Num.emax true m e) = false.
Proof.
  unfold binary_round. destruct (shl_align _ _ _) as [mz ez]. apply round_aux_negative.
Qed.

Lemma normalize_positive (m e : Z) :
  Num.is_pos (binary_normalize Num.prec Num.emax m e false) = true -> 0 < m.
Proof.
  destruct m as [|p|p]; simpl; [discriminate | lia |].
  rewrite round_negative. discriminate.
Qed.

Lemma normalize_not_positive (m e : Z) :
  m <= 0 -> Num.is_pos (binary_normalize Num.prec Num.emax m e false) = false.
Proof.
  intro H. destruct (Num.is_pos _) eqn:E; [|reflexivity].
  apply normalize_positive in E. lia.
Qed.

(** If [x - y] is positive then [y - x] is not. *)
Lemma sub_pos_asym (x y : Num.num) :
  Num.is_pos (Num.sub x y) = true -> Num.is_pos (Num.sub y x) = false.
Proof.
  unfold Num.sub.
  destruct x as [sx|sx| |sx mx ex], y as [sy|sy| |sy my ey];
    try (destruct sx, sy; simpl; congruence);
    try (destruct sx; simpl; congruence);
    try (destruct sy; simpl; congruence);
    try (simpl; congruence).
  cbn [SFsub]. cbv zeta. intro H.
  apply normalize_positive in H.
  apply normalize_not_positive.
  rewrite (Z.min_comm ey ex). lia.
Qed.

(** ** Numbers: the order of the differences *)

Lemma digits2_pos_spec (p : positive) : 2 ^ (Zpos (digits2_pos p) - 1) <= Zpos p.
Proof.
  induction p as [p IH|p IH|]; cbn [digits2_pos]; [| |simpl; lia].
  - rewrite Pos2Z.inj_succ. replace (Z.succ (Zpos (digits2_pos p)) - 1) with (Z.succ (Zpos (digits2_pos p) - 1)) by lia.
    rewrite Z.pow_succ_r by lia. lia.
  - rewrite Pos2Z.inj_succ. replace (Z.succ (Zpos (digits2_pos p)) - 1) with (Z.succ (Zpos (digits2_pos p) - 1)) by lia.
    rewrite Z.pow_succ_r by lia. lia.
Qed.

Lemma shr_1_m (mrs : shr_record) : 0 <= shr_m mrs -> shr_m (shr_1 mrs) = shr_m mrs / 2.
Proof.
  destruct mrs as [m r s]. cbn [shr_m shr_1]. intro H.
  destruct m as [|[p|p|]|p]; cbn [shr_m]; try lia.
  - reflexivity.
  - rewrite Pos2Z.inj_xI. apply Z.div_unique with (r := 1); lia.
  - rewrite Pos2Z.inj_xO. apply Z.div_unique with (r := 0); lia.
  - reflexivity.
Qed.

Lemma iter_shr_1_m (k : positive) :
  forall mrs, 0 <= shr_m mrs -> shr_m (iter_pos shr_1 k mrs) = shr_m mrs / 2 ^ Zpos k.
Proof.
  assert (Hdiv : forall m a b, 0 < a -> 0 < b -> 0 <= m -> 0 <= m / a /\ m / a / b = m / (a * b)).
  { intros m a b Ha Hb Hm. split; [apply Z.div_pos; lia|]. apply Z.div_div; lia. }
  induction k as [k IH|k IH|]; intros mrs H; cbn [iter_pos].
  - assert (H1 : 0 <= shr_m (shr_1 mrs)) by (rewrite shr_1_m by exact H; apply Z.div_pos; lia).
    assert (H2 : 0 <= shr_m (iter_pos shr_1 k (shr_1 mrs)))
      by (rewrite IH by exact H1; apply Z.div_pos; [exact H1 | apply Z.pow_pos_nonneg; lia]).
    rewrite IH by exact H2. rewrite IH by exact H1. rewrite shr_1_m by exact H.
    assert (P : 0 < 2 ^ Zpos k) by (apply Z.pow_pos_nonneg; lia).
    rewrite (proj2 (Hdiv _ 2 (2 ^ Zpos k) ltac:(lia) P H)).
    rewrite (proj2 (Hdiv _ (2 * 2 ^ Zpos k) (2 ^ Zpos k) ltac:(lia) P H)).
    f_equal. rewrite Pos2Z.inj_xI.
    replace (2 * Zpos k + 1) with (Zpos k + Zpos k + 1) by lia.
    rewrite !Z.pow_add_r, Z.pow_1_r by lia. lia.
  - assert (P : 0 < 2 ^ Zpos k) by (apply Z.pow_pos_nonneg; lia).
    assert (H1 : 0 <= shr_m (iter_pos shr_1 k mrs))
      by (rewrite IH by exact H; apply Z.div_pos; [exact H | exact P]).
    rewrite IH by exact H1. rewrite IH by exact H.
    rewrite (proj2 (Hdiv _ (2 ^ Zpos k) (2 ^ Zpos k) P P H)).
    f_equal. rewrite <- Z.pow_add_r by lia. f_equal. lia.
  - rewrite shr_1_m by exact H. reflexivity.
Qed.

Lemma shr_record_m (m : Z) (l : location) : shr_m (shr_record_of_loc m l) = m.
Proof. destruct l as [|[]]; reflexivity. Qed.

(** Bringing a mantissa to its format never leaves an exponent below the
    least one, and it leaves a positive mantissa positive when the exponent
    was not below it. *)
Lemma shr_fexp_exponent (m e : Z) (l : location) :
  -1074 <= snd (shr_fexp Num.prec Num.emax m e l).
Proof.
  unfold shr_fexp, shr, fexp, emin, Num.prec, Num.emax.
  destruct (Z.max (Zdigits2 m + e - 53) (3 - 1024 - 53) - e) as [|k|k] eqn:E;
    cbn [snd]; lia.
Qed.

Lemma shr_fexp_positive (p : positive) (e : Z) (l : location) :
  -1074 <= e -> 0 < shr_m (fst (shr_fexp Num.prec Num.emax (Zpos p) e l)).
Proof.
  intro He. unfold shr_fexp, shr, fexp, emin, Num.prec, Num.emax. cbn [Zdigits2].
  pose proof (digits2_pos_spec p) as Hd.
  destruct (Z.max (Zpos (digits2_pos p) + e - 53) (3 - 1024 - 53) - e) as [|k|k] eqn:E;
    cbn [fst]; rewrite ?shr_record_m; try lia.
  rewrite iter_shr_1_m by (rewrite shr_record_m; lia). rewrite shr_record_m.
  assert (P : 0 < 2 ^ Zpos k) by (apply Z.pow_pos_nonneg; lia).
  apply Z.lt_le_trans with (m := 1); [lia|].
  apply Z.div_le_lower_bound; [exact P|].
  rewrite Z.mul_1_r. eapply Z.le_trans; [|exact Hd].
  apply Z.pow_le_mono_r; lia.
Qed.

(** Rounding gives a representable number, and of a positive mantissa with
    an exponent that is not below the least one it gives a number that is not
    zero. *)
Lemma round_aux_representable (s : bool) (m e : Z) (l : location) :
  representable (binary_round_aux Num.prec Num.emax s m e l).
Proof.
  unfold binary_round_aux.
  destruct (shr_fexp Num.prec Num.emax m e l) as [mrs' e'].
  pose proof (shr_fexp_exponent
                (round_nearest_even (shr_m mrs') (loc_of_shr_record mrs')) e' loc_Exact) as H.
  destruct (shr_fexp Num.prec Num.emax _ e' loc_Exact) as [mrs'' e''].
  cbn [snd] in H.
  destruct (shr_m mrs''); [exact I| |exact I].
  destruct (e'' <=? Num.emax - Num.prec); [exact H | exact I].
Qed.

Lemma round_aux_positive_mantissa (p : positive) (e : Z) (l : location) :
  -1074 <= e ->
  Num.is_pos (binary_round_aux Num.prec Num.emax false (Zpos p) e l) = true.
Proof.
  intro He. unfold binary_round_aux.
  pose proof (shr_fexp_positive p e l He) as H1.
  pose proof (shr_fexp_exponent (Zpos p) e l) as H2.
  destruct (shr_fexp Num.prec Num.emax (Zpos p) e l) as [mrs' e'].
  cbn [fst snd] in H1, H2.
  assert (Hr : 0 < round_nearest_even (shr_m mrs') (loc_of_shr_record mrs')).
  { unfold round_nearest_even. destruct (loc_of_shr_record mrs') as [|[]]; try lia.
    destruct (Z.even (shr_m mrs')); lia. }
  destruct (round_nearest_even (shr_m mrs') (loc_of_shr_record mrs')) as [|q|q]; try lia.
  pose proof (shr_fexp_positive q e' loc_Exact H2) as H3.
  destruct (shr_fexp Num.prec Num.emax (Zpos q) e' loc_Exact) as [mrs'' e''].
  cbn [fst] in H3.
  destruct (shr_m mrs''); try lia.
  destruct (e'' <=? Num.emax - Num.prec); reflexivity.
Qed.

Lemma shl_align_exponent (m : positive) (e e' : Z) :
  -1074 <= e -> -1074 <= e' -> -1074 <= snd (shl_align m e e').
Proof. intros H H'. unfold shl_align. destruct (e' - e); cbn [snd]; lia. Qed.

Lemma normalize_positive_mantissa (m e : Z) :
  -1074 <= e -> 0 < m -> Num.is_pos (binary_normalize Num.prec Num.emax m e false) = true.
Proof.
  intros He Hm. destruct m as [|p|p]; try lia. cbn [binary_normalize]. unfold binary_round.
  pose proof (shl_align_exponent p e (fexp Num.prec Num.emax (Zpos (digits2_pos p) + e)) He) as H.
  destruct (shl_align p e _) as [mz ez]. cbn [snd] in H.
  apply round_aux_positive_mantissa. apply H.
  unfold fexp, emin, Num.prec, Num.emax. lia.
Qed.

Lemma iter_xO_value (m d : positive) : Zpos (Pos.iter xO m d) = Zpos m * 2 ^ Zpos d.
Proof.
  induction d as [|d IH] using Pos.peano_ind.
  - simpl. lia.
  - rewrite Pos.iter_succ, Pos2Z.inj_xO, IH, Pos2Z.inj_succ, Z.pow_succ_r by lia. lia.
Qed.

Lemma shl_align_value (m : positive) (e e' : Z) :
  e' <= e -> Zpos (fst (shl_align m e e')) = Zpos m * 2 ^ (e - e').
Proof.
  intro H. unfold shl_align. destruct (e' - e) as [|d|d] eqn:E; try lia.
  - cbn [fst]. replace (e - e') with 0 by lia. lia.
  - cbn [fst]. rewrite iter_xO_value. f_equal. f_equal. lia.
Qed.

Lemma scaled_positive (m : positive) (e : Z) : -1074 <= e -> 0 < Zpos m * 2 ^ (e + 1074).
Proof. intro H. apply Z.mul_pos_pos; [lia | apply Z.pow_pos_nonneg; lia]. Qed.

Lemma normalize_sign_iff (m e : Z) :
  -1074 <= e ->
  (Num.is_pos (binary_normalize Num.prec Num.emax m e false) = false <-> m <= 0).
Proof.
  intro He. split.
  - intro H. destruct (Z_le_gt_dec m 0) as [Hm|Hm]; [exact Hm|].
    rewrite normalize_positive_mantissa in H by lia. discriminate H.
  - apply normalize_not_positive.
Qed.

(** The difference of two representable numbers is positive exactly when
    the first is above the second. *)
Lemma sub_positive_iff (x y : Num.num) :
  representable x -> representable y -> Num.is_nan x = false -> Num.is_nan y = false ->
  (Num.is_pos (Num.sub x y) = false <-> num_le x y).
Proof.
  unfold Num.sub, num_le.
  destruct x as [sx|sx| |sx mx ex], y as [sy|sy| |sy my ey]; intros Hx Hy Nx Ny;
    try discriminate; cbn [representable] in Hx, Hy.
  1-8: try pose proof (scaled_positive mx ex Hx) as Px;
       try pose proof (scaled_positive my ey Hy) as Py;
       try destruct sx; try destruct sy;
       cbn [SFsub Num.is_pos num_class num_scaled cond_Zopp];
       (split; intro H; [first [discriminate H | lia] | first [reflexivity | exfalso; lia]]).
  cbn [SFsub num_class num_scaled]. cbv zeta.
  rewrite normalize_sign_iff by lia.
  rewrite !shl_align_value by lia.
  set (ez := Z.min ex ey).
  assert (K : 0 < 2 ^ (ez + 1074)) by (apply Z.pow_pos_nonneg; lia).
  assert (Ex : 2 ^ (ex + 1074) = 2 ^ (ex - ez) * 2 ^ (ez + 1074))
    by (rewrite <- Z.pow_add_r by lia; f_equal; lia).
  assert (Ey : 2 ^ (ey + 1074) = 2 ^ (ey - ez) * 2 ^ (ez + 1074))
    by (rewrite <- Z.pow_add_r by lia; f_equal; lia).
  rewrite Ex, Ey.
  assert (Ax : 0 < Zpos mx * 2 ^ (ex - ez)) by (apply Z.mul_pos_pos; [lia | apply Z.pow_pos_nonneg; lia]).
  assert (Ay : 0 < Zpos my * 2 ^ (ey - ez)) by (apply Z.mul_pos_pos; [lia | apply Z.pow_pos_nonneg; lia]).
  rewrite !Z.mul_assoc.
  set (a := Zpos mx * 2 ^ (ex - ez)) in *. set (b := Zpos my * 2 ^ (ey - ez)) in *.
  set (k := 2 ^ (ez + 1074)) in *.
  destruct sx, sy; cbn [cond_Zopp]; split; intro H; nia.
Qed.

Lemma num_le_trans (x y z : Num.num) : num_le x y -> num_le y z -> num_le x z.
Proof. unfold num_le. lia. Qed.

Lemma mul_representable (x y : Num.num) : representable (Num.mul x y).
Proof.
  unfold Num.mul. destruct x as [sx|sx| |sx mx ex], y as [sy|sy| |sy my ey]; try exact I.
  apply round_aux_representable.
Qed.





(** ** Sorting by a number *)

Section SortedFacts.
Context {A : Type}.

Lemma Sorted_on (P R : A -> A -> Prop) (good : A -> Prop) (l : list A) :
  (forall a b, good a -> good b -> P a b -> R a b) ->
  Forall good l -> Sorted P l -> Sorted R l.
Proof.
  intros H Hg Hs. induction Hs as [|x l Hs IH Hhd]; [constructor|].
  inversion Hg as [|? ? Hx Hl]; subst. constructor; [apply IH; exact Hl|].
  destruct Hhd as [|y l' Hxy]; constructor.
  inversion Hl; subst. apply H; assumption.
Qed.

Lemma StronglySorted_on (P R : A -> A -> Prop) (good : A -> Prop) (l : list A) :
  (forall a b, good a -> good b -> P a b -> R a b) ->
  Forall good l -> StronglySorted P l -> StronglySorted R l.
Proof.
  intros H Hg Hs. induction Hs as [|x l Hs IH Hall]; [constructor|].
  inversion Hg as [|? ? Hx Hl]; subst. constructor; [apply IH; exact Hl|].
  rewrite Forall_forall in *. intros y Hy. apply H; auto.
Qed.

Lemma StronglySorted_snoc (R : A -> A -> Prop) (l : list A) (x : A) :
  StronglySorted R l -> Forall (fun y => R y x) l -> StronglySorted R (l ++ [x]).
Proof.
  intros Hs Hx. induction Hs as [|y l Hs IH Hall]; simpl.
  - constructor; constructor.
  - inversion Hx as [|? ? Hy Hl]; subst. constructor; [apply IH; exact Hl|].
    apply Forall_app. split; [exact Hall | constructor; [exact Hy | constructor]].
Qed.

Lemma StronglySorted_rev (R : A -> A -> Prop) (l : list A) :
  StronglySorted R l -> StronglySorted (fun a b => R b a) (rev l).
Proof.
  induction 1 as [|x l Hs IH Hall]; simpl; [constructor|].
  apply StronglySorted_snoc; [exact IH|].
  apply Forall_forall. intros y Hy. apply in_rev in Hy.
  rewrite Forall_forall in Hall. exact (Hall y Hy).
Qed.



(** When no element has the value NaN, an array sorted by the differences of
    the values of its elements and reversed is in descending order: no
    element is above one that comes before it. *)
Lemma sort_by_value_descending (value : A -> Num.num) (l : list A) :
  (forall a, In a l -> representable (value a) /\ Num.is_nan (value a) = false) ->
  StronglySorted (fun a b => Num.is_pos (Num.sub (value b) (value a)) = false)
    (rev (Arr.sort (fun a b => Num.is_pos (Num.sub (value a) (value b))) l)).
Proof.
  intro Hl.
  set (after := fun a b => Num.is_pos (Num.sub (value a) (value b))).
  set (good := fun a => representable (value a) /\ Num.is_nan (value a) = false).
  assert (Hg : Forall good (Arr.sort after l)).
  { apply Forall_forall. intros a Ha. apply sort_In in Ha. exact (Hl a Ha). }
  assert (Hs : Sorted (fun a b => after a b = false) (Arr.sort after l)).
  { apply sort_sorted. intros x y. apply sub_pos_asym. }
  apply (Sorted_on _ (fun a b => num_le (value a) (value b)) good) in Hs; [|
    intros a b [Ra Na] [Rb Nb] H; apply sub_positive_iff; assumption | exact Hg].
  apply Sorted_StronglySorted in Hs;
    [|intros a b c; apply num_le_trans].
  apply StronglySorted_rev in Hs.
  apply (StronglySorted_on _ _ good) with (3 := Hs).
  - intros a b [Ra Na] [Rb Nb] H. apply sub_positive_iff; assumption.
  - apply Forall_forall. intros a Ha. apply in_rev in Ha.
    rewrite Forall_forall in Hg. exact (Hg a Ha).
Qed.

End SortedFacts.

(** ** The pattern of font URLs *)

Lemma iterate_class (greedy : bool) (p : ascii -> bool) (fuel : nat) :
  forall (i : nat) (s : string) (cap : jsval),
    (String.length s <= fuel)%nat ->
    Regex.iterate (Regex.run (Regex.Class p)) greedy fuel (Regex.mkState i s cap)
    = star_states greedy p i s cap.
Proof.
  induction fuel as [|fuel IH]; intros i s cap Hlen.
  - destruct s; [|simpl in Hlen; lia]. simpl. destruct greedy; reflexivity.
  - destruct s as [|c s]; [simpl; destruct greedy; reflexivity|].
    cbn [Regex.iterate Regex.run Regex.rest Regex.index Regex.capture star_states].
    destruct (p c); [|reflexivity].
    cbn [flat_map Regex.rest]. rewrite app_nil_r.
    assert (E : (String.length s <? String.length (String c s))%nat = true)
      by (apply Nat.ltb_lt; simpl; lia).
    rewrite E, IH by (simpl in Hlen; lia). reflexivity.
Qed.

Lemma run_star_class (greedy : bool) (p : ascii -> bool) (i : nat) (s : string) (cap : jsval) :
  Regex.run (Regex.Star greedy (Regex.Class p)) (Regex.mkState i s cap)
  = star_states greedy p i s cap.
Proof. apply iterate_class. apply Nat.le_refl. Qed.

Lemma star_states_In (greedy : bool) (p : ascii -> bool) (s : string) :
  forall (i : nat) (cap : jsval) (y : Regex.state),
    In y (star_states greedy p i s cap) <->
    exists d, s = (d ++ Regex.rest y)%string /\ all_chars p d = true
              /\ Regex.index y = (i + String.length d)%nat /\ Regex.capture y = cap.
Proof.
  induction s as [|c s IH]; intros i cap y.
  - assert (H : In y (star_states greedy p i "" cap) <-> y = Regex.mkState i "" cap).
    { simpl. destruct greedy; simpl; intuition congruence. }
    rewrite H. split.
    + intro E. subst y. exists EmptyString. simpl. repeat split. lia.
    + intros [d [H1 [H2 [H3 H4]]]]. destruct d; [|discriminate].
      destruct y as [yi yr yc]. simpl in *. subst. f_equal. lia.
  - assert (H : In y (star_states greedy p i (String c s) cap) <->
                y = Regex.mkState i (String c s) cap
                \/ (p c = true /\ In y (star_states greedy p (S i) s cap))).
    { cbn [star_states]. destruct greedy, (p c); simpl; rewrite ?in_app_iff; simpl;
        intuition congruence. }
    rewrite H, IH. split.
    + intros [E|[Hc [d [H1 [H2 [H3 H4]]]]]].
      * subst y. exists EmptyString. simpl. repeat split. lia.
      * exists (String c d). simpl. rewrite Hc, H2, H3. repeat split; [congruence | lia | exact H4].
    + intros [d [H1 [H2 [H3 H4]]]]. destruct d as [|x d].
      * left. destruct y as [yi yr yc]. simpl in *. subst. f_equal. lia.
      * right. simpl in H1, H2, H3. apply andb_true_iff in H2. destruct H2 as [Hx Hd].
        injection H1 as Ex Es. subst x. split; [exact Hx|].
        exists d. repeat split; [exact Es | exact Hd | lia | exact H4].
Qed.

Lemma run_close_empty (i : nat) (r : string) (cap : jsval) :
  Regex.run close_re (Regex.mkState i r cap) = [] <-> closes r = false.
Proof.
  unfold close_re, Regex.opt, Regex.chr.
  destruct r as [|c [|c' r]]; cbn -[is_quote Ascii.eqb].
  - tauto.
  - destruct (is_quote c); cbn -[is_quote Ascii.eqb];
      destruct (Ascii.eqb ")" c); cbn -[is_quote Ascii.eqb]; split; congruence.
  - destruct (is_quote c); cbn -[is_quote Ascii.eqb];
      destruct (Ascii.eqb ")" c); cbn -[is_quote Ascii.eqb];
      destruct (Ascii.eqb ")" c'); cbn -[is_quote Ascii.eqb]; split; congruence.
Qed.

Lemma run_close_capture (st y : Regex.state) :
  In y (Regex.run close_re st) -> Regex.capture y = Regex.capture st.
Proof.
  destruct st as [i r cap]. unfold close_re, Regex.opt, Regex.chr.
  destruct r as [|c [|c' r]]; cbn -[is_quote Ascii.eqb].
  - tauto.
  - destruct (is_quote c); cbn -[is_quote Ascii.eqb];
      destruct (Ascii.eqb ")" c); cbn -[is_quote Ascii.eqb];
      intuition (subst; reflexivity).
  - destruct (is_quote c); cbn -[is_quote Ascii.eqb];
      destruct (Ascii.eqb ")" c); cbn -[is_quote Ascii.eqb];
      destruct (Ascii.eqb ")" c'); cbn -[is_quote Ascii.eqb];
      intuition (subst; reflexivity).
Qed.

Lemma flat_map_nil {A B : Type} (f : A -> list B) (l : list A) :
  flat_map f l = [] <-> forall x, In x l -> f x = [].
Proof.
  induction l as [|a l IH]; simpl; [tauto|].
  split.
  - intros H x [E|Hx].
    + subst x. apply app_eq_nil in H. tauto.
    + apply app_eq_nil in H. apply IH; tauto.
  - intro H. rewrite (H a) by tauto. apply IH. intros x Hx. apply H. tauto.
Qed.

Lemma run_query_In (i : nat) (r : string) (cap : jsval) (y : Regex.state) :
  In y (Regex.run query_re (Regex.mkState i r cap)) <->
  y = Regex.mkState i r cap
  \/ exists r', r = String "?" r' /\ In y (star_states true is_dot (S i) r' cap).
Proof.
  unfold query_re, Regex.opt, Regex.chr.
  cbn [Regex.run]. rewrite in_app_iff.
  destruct r as [|c r]; cbn [Regex.run Regex.rest Regex.index Regex.capture flat_map In].
  - split; [intros [[]|[E|[]]]; left; congruence|].
    intros [E|[r' [E _]]]; [right; left; congruence | discriminate].
  - destruct (Ascii.eqb_spec "?" c) as [E|E].
    + subst c. cbn [flat_map]. rewrite app_nil_r.
      cbn [Regex.rest]. unfold Regex.dot.
      change (fun c => negb (Str.is_line_terminator c)) with is_dot.
      rewrite iterate_class by apply Nat.le_refl. split.
      * intros [H|[H|[]]]; [right; exists r; tauto | left; congruence].
      * intros [H|[r' [H1 H2]]]; [right; left; congruence|].
        left. congruence.
    + cbn [flat_map In]. split.
      * intros [[]|[H|[]]]. left. congruence.
      * intros [H|[r' [H1 _]]]; [right; left; congruence | congruence].
Qed.

Lemma run_tail_empty (i : nat) (r : string) (cap : jsval) :
  Regex.run tail_re (Regex.mkState i r cap) = [] <-> ~ tail_ok r.
Proof.
  unfold tail_re. cbn [Regex.run]. rewrite flat_map_nil. unfold tail_ok. split.
  - intros H [Hc|[d [r' [E [Hd Hc]]]]].
    + specialize (H (Regex.mkState i r cap)).
      rewrite run_close_empty in H. rewrite H in Hc; [discriminate|].
      apply run_query_In. left. reflexivity.
    + specialize (H (Regex.mkState (S i + String.length d) r' cap)).
      rewrite run_close_empty in H. rewrite H in Hc; [discriminate|].
      apply run_query_In. right. exists (d ++ r')%string. split; [exact E|].
      apply star_states_In. exists d. simpl. tauto.
  - intros H y Hy. destruct y as [yi yr yc]. apply run_close_empty.
    destruct (closes yr) eqn:Hc; [|reflexivity]. exfalso. apply H.
    apply run_query_In in Hy. destruct Hy as [E|[r' [E Hy]]].
    + left. congruence.
    + right. apply star_states_In in Hy. destruct Hy as [d [H1 [H2 _]]].
      simpl in H1. exists d, yr. subst. tauto.
Qed.

Lemma run_tail_capture (st y : Regex.state) :
  In y (Regex.run tail_re st) -> Regex.capture y = Regex.capture st.
Proof.
  unfold tail_re. cbn [Regex.run]. rewrite in_flat_map. intros [x [Hx Hy]].
  apply run_close_capture in Hy. rewrite Hy.
  destruct st as [i r cap]. apply run_query_In in Hx.
  destruct Hx as [E|[r' [_ Hx]]]; [subst x; reflexivity|].
  apply star_states_In in Hx. destruct Hx as [d [_ [_ [_ H]]]]. exact H.
Qed.

Lemma firstn_append (pre s : string) : Str.firstn (String.length pre) (pre ++ s) = pre.
Proof. induction pre as [|c pre IH]; simpl; [destruct s; reflexivity | congruence]. Qed.

Lemma length_append (a b : string) :
  String.length (a ++ b) = (String.length a + String.length b)%nat.
Proof. induction a as [|c a IH]; simpl; congruence. Qed.



Lemma group_states_spec (s : string) :
  forall (pre : string) (i0 i : nat) (s0 : string) (cap : jsval),
    s0 = (pre ++ s)%string -> i = (i0 + String.length pre)%nat ->
    map (fun st' => Regex.mkState (Regex.index st') (Regex.rest st')
                                  (JString (Str.firstn (Regex.index st' - i0) s0)))
        (star_states false is_dot i s cap)
    = group_states pre i s.
Proof.
  induction s as [|c s IH]; intros pre i0 i s0 cap Hs Hi.
  - simpl. subst. repeat f_equal.
    replace (i0 + String.length pre - i0)%nat with (String.length pre) by lia.
    apply firstn_append.
  - cbn [star_states group_states map Regex.index Regex.rest].
    f_equal.
    + subst. repeat f_equal.
      replace (i0 + String.length pre - i0)%nat with (String.length pre) by lia.
      apply firstn_append.
    + destruct (is_dot c); [|reflexivity].
      apply IH.
      * subst s0. rewrite append_assoc. reflexivity.
      * rewrite length_append. simpl. lia.
Qed.

Lemma run_group (i : nat) (s : string) (cap : jsval) :
  Regex.run (Regex.Group (Regex.Star false Regex.dot)) (Regex.mkState i s cap)
  = group_states EmptyString i s.
Proof.
  change (Regex.run (Regex.Group (Regex.Star false Regex.dot)) (Regex.mkState i s cap))
    with (map (fun st' => Regex.mkState (Regex.index st') (Regex.rest st')
                                        (JString (Str.firstn (Regex.index st' - i) s)))
              (Regex.run (Regex.Star false (Regex.Class is_dot)) (Regex.mkState i s cap))).
  rewrite run_star_class. apply group_states_spec; [reflexivity | simpl; lia].
Qed.










(** ** Font sizes *)

Lemma getFontSizes_canonical (this : StyleGuide) : canonical JString (getFontSizes this).
Proof.
  unfold getFontSizes, canonical. split.
  - apply NoDup_filter, unique_NoDup. exact string_eqb_spec.
  - intros x H. apply filter_In in H. apply not_excluded_spec. tauto.
Qed.

Lemma is_scalable_spec (size : string) :
  is_scalable size = true <-> occurs "rem" size \/ occurs "px" size.
Proof. unfold is_scalable. rewrite orb_true_iff, !indexOf_occurs. tauto. Qed.

Lemma scalable_after_asym (root : Num.num) (a b : string) :
  Num.is_pos (sortScalableFontSizes root a b) = true ->
  Num.is_pos (sortScalableFontSizes root b a) = false.
Proof. unfold sortScalableFontSizes. apply sub_pos_asym. Qed.

Lemma scaleFontSizes_originals (fontSizes : list string) (rootSize : string) :
  map snd (scaleFontSizes fontSizes rootSize)
  = rev (Arr.sort (fun a b => Num.is_pos (sortScalableFontSizes (Num.parseFloat rootSize) a b))
                  (filter is_scalable fontSizes)).
Proof.
  unfold scaleFontSizes. rewrite map_map.
  erewrite map_ext; [apply map_id|].
  intro size. destruct (0 <=? Str.indexOf size "rem"); reflexivity.
Qed.

(** ** The pattern of units *)








(** ** Auxiliary facts on the accessors *)

Lemma colors_of_canonical (this : StyleGuide) (name : string) :
  canonical (fun v => v) (colors_of this name).
Proof.
  split; [apply colors_of_NoDup|].
  intros v H. apply colors_of_In in H. tauto.
Qed.

Lemma all_colors_In (this : StyleGuide) (v : jsval) :
  In v (Arr.sort default_after
          (unique jsval_eqb (colors_of this "color" ++ colors_of this "background-color")))
  <-> In v (colors_of this "color") \/ In v (colors_of this "background-color").
Proof. rewrite sort_In, (unique_In jsval_eqb jsval_eqb_spec), in_app_iff. tauto. Qed.

Lemma all_colors_NoDup (this : StyleGuide) :
  NoDup (Arr.sort default_after
           (unique jsval_eqb (colors_of this "color" ++ colors_of this "background-color"))).
Proof. apply sort_NoDup, unique_NoDup. exact jsval_eqb_spec. Qed.

Lemma fonts_NoDup (this : StyleGuide) :
  NoDup (getFontsInUse this ++ fonts_not_in_use_of this).
Proof.
  apply NoDup_app.
  - apply getFontsInUse_NoDup.
  - apply fonts_not_in_use_NoDup.
  - intros s H1 H2. apply fonts_not_in_use_In in H2. tauto.
Qed.

Lemma hex_color_kept (c : string) :
  is_hex_color c = true ->
  truthy (JString c) = true /\ hacky_value (JString c) = false
  /\ ~ In (JString c) excludedValues.
Proof.
  intro H. destruct c as [|a s]; [discriminate|].
  destruct (ascii_dec a "#") as [E|E]; [subst a | rewrite is_hex_color_other in H by exact E; discriminate].
  repeat split.
  - change (hacky_value (JString (String "#" s))) with (negb (is_hex_color (String "#" s))).
    rewrite H. reflexivity.
  - simpl. intros [K|[K|[K|[K|[]]]]]; discriminate.
Qed.

Lemma assign_keys {V : Type} (o : Obj.obj V) (k : string) (v : V) (k' : string) :
  In k' (map fst (Obj.assign o k v)) <->
  In k' (map fst o) \/ (k' = k /\ k <> "__proto__").
Proof.
  unfold Obj.assign. destruct (String.eqb_spec k "__proto__") as [E|E].
  - tauto.
  - rewrite set_keys. tauto.
Qed.



Lemma fold_step_keys (l : list rule) (h : Obj.obj jsval) (k : string) :
  In k (map fst (fold_left font_url_step l h)) <->
  In k (map fst h)
  \/ exists r, In r l /\ k = Obj.key_of (last_value "font-family" (declarations_of r))
               /\ k <> "__proto__".
Proof.
  revert h; induction l as [|r l IH]; intro h; simpl.
  - split; [tauto | intros [H|[r [[] _]]]; exact H].
  - rewrite IH. unfold font_url_step. rewrite assign_keys. split.
    + intros [[H|[H1 H2]]|[r' [H1 H2]]].
      * tauto.
      * right. exists r. subst k. tauto.
      * right. exists r'. tauto.
    + intros [H|[r' [[E|H1] [H2 H3]]]].
      * tauto.
      * subst r'. left. right. subst k. tauto.
      * right. exists r'. tauto.
Qed.


Lemma filter_font_face_In (rules : list rule) (r : rule) :
  In r (filter is_font_face rules) <-> exists ds, r = FontFace ds /\ In (FontFace ds) rules.
Proof.
  rewrite filter_In. split.
  - intros [H1 H2]. destruct r as [sels ds|ds|ty]; try discriminate. exists ds. tauto.
  - intros [ds [E H]]. subst r. tauto.
Qed.

(** Whatever the collation, the list of [getSpacings] for [blanks_doc] holds
    the empty entry and the value with the tabulator. *)
Lemma blanks_any_collation (localeCompare : string -> string -> Num.num) :
  exists l,
    getSpacings localeCompare blanks_doc = Normal l
    /\ In EmptyString l
    /\ In ("3px" ++ String "009" "4px")%string l.
Proof.
  exists (spacings_of localeCompare blanks_doc). split; [apply getSpacings_run|].
  split; apply spacings_of_In; (split; [|simpl; intros [K|[K|[K|[K|[]]]]]; discriminate]).
  - exists "1em  2em"%string. split; [left; reflexivity | simpl; tauto].
  - exists ("3px" ++ String "009" "4px")%string.
    split; [right; left; reflexivity | simpl; tauto].
Qed.

(** * The properties of the specification *)

(** C1, as the program has it: for every parsed document the lists of
    [getBackgroundColors], [getColorColors], [getColors], [getFontSizes] and
    [getSpacings] hold no entry twice and none of [auto], [inherit],
    [initial], [none]; the lists of [getFontsInUse], [getFontsNotInUse] and
    [getFonts] hold no entry twice. ([getFontFamilies] is the raw list of the
    aggregator.) *)
Theorem value_lists_canonical (localeCompare : string -> string -> Num.num) (this : StyleGuide) :
  (exists l, getBackgroundColors this = Normal l /\ canonical (fun v => v) l)
  /\ (exists l, getColorColors this = Normal l /\ canonical (fun v => v) l)
  /\ (exists l, getColors this = Normal l /\ canonical (fun v => v) l)
  /\ canonical JString (getFontSizes this)
  /\ (exists l, getSpacings localeCompare this = Normal l /\ canonical JString l)
  /\ NoDup (getFontsInUse this)
  /\ (exists l, getFontsNotInUse this = Normal l /\ NoDup l)
  /\ (exists l, getFonts this = Normal l /\ NoDup l).
Proof.
  repeat split.
  - eexists. split; [apply getBackgroundColors_run | apply colors_of_canonical].
  - eexists. split; [apply getColorColors_run | apply colors_of_canonical].
  - eexists. split; [apply getColors_run|]. split; [apply all_colors_NoDup|].
    intros v H. apply all_colors_In in H.
    destruct H as [H|H]; apply colors_of_In in H; tauto.
  - apply getFontSizes_canonical.
  - apply getFontSizes_canonical.
  - eexists. split; [apply getSpacings_run|]. split; [apply spacings_of_NoDup|].
    intros x H. apply spacings_of_In in H. tauto.
  - apply getFontsInUse_NoDup.
  - eexists. split; [apply getFontsNotInUse_run | apply fonts_not_in_use_NoDup].
  - eexists. split; [apply getFonts_run | apply fonts_NoDup].
Qed.

(** C1 fails as stated: with two rules of the same family and one rule that
    inherits, [getFontFamilies] holds an entry twice and holds [inherit], and
    [getFontsInUse] holds [inherit]. *)
Lemma font_families_not_canonical :
  getFontFamilies families_doc = ["Arial"; "Arial"; "inherit"]
  /\ ~ NoDup (getFontFamilies families_doc)
  /\ In (JString "inherit") excludedValues
  /\ In "inherit" (getFontFamilies families_doc)
  /\ getFontsInUse families_doc = ["Arial"; "inherit"]
  /\ ~ canonical JString (getFontFamilies families_doc)
  /\ ~ canonical JString (getFontsInUse families_doc).
Proof.
  assert (Hdup : ~ NoDup (getFontFamilies families_doc)).
  { intro H. inversion H as [|? ? Hx _]. apply Hx. left. reflexivity. }
  assert (Hexcl : In (JString "inherit") excludedValues) by (simpl; tauto).
  repeat split.
  - exact Hdup.
  - exact Hexcl.
  - simpl. tauto.
  - intros [H _]. exact (Hdup H).
  - intros [_ H]. apply (H "inherit"); [vm_compute; tauto | exact Hexcl].
Qed.

(** C2: for every parsed document [getColors] is the union of
    [getColorColors] and [getBackgroundColors], without duplicates, in
    strictly ascending order of the code units: each element of the two lists
    occurs in it exactly once and it holds nothing else. *)
Theorem colors_is_sorted_union (this : StyleGuide) :
  exists text background all,
    getColorColors this = Normal text
    /\ getBackgroundColors this = Normal background
    /\ getColors this = Normal all
    /\ (forall v, In v all <-> In v text \/ In v background)
    /\ (forall v, In v text \/ In v background -> count_occ jsval_eq_dec all v = 1%nat)
    /\ NoDup all
    /\ all = map JString (strings_of all)
    /\ ascending (strings_of all).
Proof.
  exists (colors_of this "color"), (colors_of this "background-color").
  eexists. split; [apply getColorColors_run|]. split; [apply getBackgroundColors_run|].
  split; [apply getColors_run|].
  assert (Hstr : Forall is_string
                   (unique jsval_eqb (colors_of this "color" ++ colors_of this "background-color"))).
  { apply Forall_forall. intros v H.
    apply (proj1 (unique_In jsval_eqb jsval_eqb_spec _ _)) in H.
    apply in_app_iff in H.
    destruct H as [H|H]; apply colors_of_In in H; apply truthy_is_string; tauto. }
  pose proof (sort_default_ascending _ Hstr (unique_NoDup jsval_eqb jsval_eqb_spec _)) as [Hs Ha].
  split; [apply all_colors_In|]. split; [|split; [apply all_colors_NoDup|split]].
  - intros v H. apply NoDup_count_occ'; [apply all_colors_NoDup | apply all_colors_In; exact H].
  - apply strings_of_map. exact Hs.
  - exact Ha.
Qed.

(** C3, as the program has it: for every parsed document the root font size
    is computed from the [font-size] declarations of the rules whose only
    selector is [html]; the last of them in source order decides; a value
    that contains the character [%] resolves to 16 times its leading number
    divided by 100, followed by [px] (so a percentage [X%] resolves to [X]
    percent of 16px, and [62.5%] to exactly [10px]); a value without [%] is
    used literally; without such a declaration the result is [16px]. *)
Theorem root_font_size (this : StyleGuide) :
  (html_font_sizes this = [] -> getRootFontSize this = "16px")
  /\ (forall before value,
         html_font_sizes this = before ++ [value] ->
         getRootFontSize this
         = if Str.has_char "%" value then percent_of_default value else value)
  /\ (forall before value,
         html_font_sizes this = before ++ [value] -> is_percentage value = true ->
         getRootFontSize this = percent_of_default value)
  /\ percent_of_default "62.5%" = "10px"
  /\ getRootFontSize percent_doc = "10px".
Proof.
  rewrite getRootFontSize_run. split; [|split; [|split; [|split]]].
  - intro H. rewrite H. reflexivity.
  - intros before value H. rewrite H, pop_last. reflexivity.
  - intros before value H Hp. rewrite H, pop_last.
    rewrite (percentage_has_percent value Hp). reflexivity.
  - vm_compute. reflexivity.
  - vm_compute. reflexivity.
Qed.

(** C3 fails as stated: [calc(100% + 2px)] is not a percentage, yet it is not
    used literally: the root font size is [NaNpx]. *)
Lemma calc_root_font_size :
  is_percentage "calc(100% + 2px)" = false
  /\ html_font_sizes calc_doc = ["calc(100% + 2px)"]
  /\ getRootFontSize calc_doc = "NaNpx"
  /\ getRootFontSize calc_doc <> "calc(100% + 2px)".
Proof.
  split; [|split; [|split]]; try (vm_compute; reflexivity).
  vm_compute. discriminate.
Qed.

(** C4, at the values [2em] and [10%]: the pattern of [sortUnitValues] cuts
    a value from its first sign, digit or dot to its end, so the unit it
    compares is the empty text before the number, for both values; the
    comparison then falls to the magnitudes, [2 - 10 = -8], and puts [2em]
    before [10%], although [%] comes before [em]; the list of sizes that do
    not scale, the ascending order reversed, is [10%], [2em]. *)
Theorem units_ignored_at_2em_10pct (localeCompare : string -> string -> Num.num) :
  Regex.remove_first unitRegex "2em" = ""
  /\ Regex.remove_first unitRegex "10%" = ""
  /\ unit_suffix "2em" = "em" /\ unit_suffix "10%" = "%"
  /\ String.compare "%" "em" = Lt
  /\ sortUnitValues localeCompare "2em" "10%" = Num.of_Z (-8)
  /\ Num.is_neg (sortUnitValues localeCompare "2em" "10%") = true
  /\ filterScalableFontSizes localeCompare ["2em"; "10%"] = ["10%"; "2em"]
  /\ filterScalableFontSizes localeCompare ["10%"; "2em"] = ["10%"; "2em"].
Proof.
  split; [|split; [|split; [|split; [|split; [|split; [|split; [|split]]]]]]];
    vm_compute; reflexivity.
Qed.



(** C6, as the program has it: [scaleFontSizes] keeps exactly the font
    sizes in which [px] or [rem] occurs; it pairs a kept size in which [rem]
    occurs with the product of the numbers at the head of the root size and of
    the size, followed by [px], and any other kept size with itself.
    [sortScalableFontSizes] compares two sizes by the difference of their
    pixel magnitudes; when the magnitude of no kept size is NaN, the pairs are
    in descending order of it: no size is above one that comes before it in
    the list. For [.a{font-size:2rem} .b{font-size:24px}
    html{font-size:62.5%}] the result is [(24px, 24px)], [(20px, 2rem)]. *)
Theorem scalable_font_sizes (fontSizes : list string) (rootSize : string) :
  Permutation (map snd (scaleFontSizes fontSizes rootSize)) (filter is_scalable fontSizes)
  /\ (forall size, In size (map snd (scaleFontSizes fontSizes rootSize)) <->
                   In size fontSizes /\ (occurs "rem" size \/ occurs "px" size))
  /\ (forall px size,
         In (px, size) (scaleFontSizes fontSizes rootSize) ->
         (occurs "rem" size ->
          px = (Num.to_string
                  (Num.mul (Num.parseFloat (Num.to_string (Num.parseFloat rootSize)))
                           (Num.parseFloat size)) ++ "px")%string)
         /\ (~ occurs "rem" size -> px = size))
  /\ (forall size1 size2,
         sortScalableFontSizes (Num.parseFloat rootSize) size1 size2
         = Num.sub (pixels (Num.parseFloat rootSize) size1)
                   (pixels (Num.parseFloat rootSize) size2))
  /\ ((forall size, In size fontSizes -> is_scalable size = true ->
                    Num.is_nan (pixels (Num.parseFloat rootSize) size) = false) ->
      StronglySorted
        (fun a b => Num.is_pos (Num.sub (pixels (Num.parseFloat rootSize) b)
                                        (pixels (Num.parseFloat rootSize) a)) = false)
        (map snd (scaleFontSizes fontSizes rootSize)))
  /\ scaleFontSizes (getFontSizes scale_doc) (getRootFontSize scale_doc)
     = [("24px", "24px"); ("20px", "2rem")].
Proof.
  rewrite scaleFontSizes_originals.
  split; [|split; [|split; [|split; [|split]]]].
  - eapply Permutation_trans; [apply Permutation_sym, Permutation_rev | apply sort_perm].
  - intro size. rewrite <- in_rev, sort_In, filter_In, is_scalable_spec. tauto.
  - intros px size H. unfold scaleFontSizes in H. apply in_map_iff in H.
    destruct H as [size' [E _]].
    destruct (0 <=? Str.indexOf size' "rem") eqn:Erem; injection E as E1 E2; subst px size'.
    + split; [intros _; reflexivity|].
      intro H. exfalso. apply H. apply indexOf_occurs. exact Erem.
    + split; [|intros _; reflexivity].
      intro H. apply indexOf_occurs in H. congruence.
  - intros size1 size2. reflexivity.
  - intro Hn.
    apply (sort_by_value_descending (pixels (Num.parseFloat rootSize))).
    intros size Hs. apply filter_In in Hs. destruct Hs as [H1 H2].
    split; [apply mul_representable | apply Hn; assumption].
  - vm_compute. reflexivity.
Qed.

(** C6 fails as stated: [calc(1em + 2px)] has no unit [px] or [rem], yet it
    is kept, paired with itself. *)
Lemma calc_size_kept :
  scaleFontSizes ["calc(1em + 2px)"] "16px" = [("calc(1em + 2px)", "calc(1em + 2px)")]
  /\ unit_suffix "calc(1em + 2px)" = "calc(1em + 2px)"
  /\ unit_suffix "calc(1em + 2px)" <> "px"
  /\ unit_suffix "calc(1em + 2px)" <> "rem".
Proof.
  split; [|split; [|split]]; try (vm_compute; reflexivity); vm_compute; discriminate.
Qed.

(** C7: for every parsed document, a colour that starts with [#] and goes on
    with anything but exactly three or exactly six hexadecimal digits is in
    none of the lists of [getColorColors], [getBackgroundColors] and
    [getColors]; a colour that is [#] and three or six hexadecimal digits and
    is a value of [color] (of [background-color]) in the source is in the list
    of [getColorColors] (of [getBackgroundColors]) and in that of [getColors].
    For the declarations [color:#000\9] and [color:#000], [getColorColors]
    returns [#000] alone. *)
Theorem hacky_colors_excluded (this : StyleGuide) :
  exists text background all,
    getColorColors this = Normal text
    /\ getBackgroundColors this = Normal background
    /\ getColors this = Normal all
    /\ (forall c, is_hacky c = true ->
                  ~ In (JString c) text /\ ~ In (JString c) background /\ ~ In (JString c) all)
    /\ (forall c, is_hex_color c = true ->
                  (In (JString c) (values_of this "color") ->
                   In (JString c) text /\ In (JString c) all)
                  /\ (In (JString c) (values_of this "background-color") ->
                      In (JString c) background /\ In (JString c) all))
    /\ getColorColors hack_doc = Normal [JString "#000"].
Proof.
  exists (colors_of this "color"), (colors_of this "background-color").
  eexists. split; [apply getColorColors_run|]. split; [apply getBackgroundColors_run|].
  split; [apply getColors_run|]. split; [|split].
  - intros c Hc.
    assert (H : forall name, ~ In (JString c) (colors_of this name)).
    { intros name H. apply colors_of_In in H. simpl hacky_value in H.
      destruct H as [_ [_ [H _]]]. congruence. }
    repeat split; try apply H.
    intro K. apply all_colors_In in K. destruct K as [K|K]; exact (H _ K).
  - intros c Hc. pose proof (hex_color_kept c Hc) as Hk.
    split; intro H.
    + assert (K : In (JString c) (colors_of this "color")) by (apply colors_of_In; tauto).
      split; [exact K | apply all_colors_In; left; exact K].
    + assert (K : In (JString c) (colors_of this "background-color"))
        by (apply colors_of_In; tauto).
      split; [exact K | apply all_colors_In; right; exact K].
  - vm_compute. reflexivity.
Qed.

(** C8: for every parsed document no string is both in the list of
    [getFontsInUse] and in that of [getFontsNotInUse]. *)
Theorem fonts_in_use_disjoint (this : StyleGuide) :
  exists notInUse,
    getFontsNotInUse this = Normal notInUse
    /\ forall font, ~ (In font (getFontsInUse this) /\ In font notInUse).
Proof.
  exists (fonts_not_in_use_of this). split; [apply getFontsNotInUse_run|].
  intros font [H1 H2]. apply fonts_not_in_use_In in H2. tauto.
Qed.

(** C9, as the program has it: for every parsed document none of the
    operations raises; [getFontUrls] gives a [font-face] rule without a [src]
    declaration the empty string as its URL; it raises at no rule, with or
    without a [font-family] declaration, and goes on with the rules that
    follow; [getSpacings] returns the empty list when neither [margin] nor
    [padding] has been aggregated. *)
Theorem core_operations_total (localeCompare : string -> string -> Num.num) (this : StyleGuide) :
  (exists l, getBackgroundColors this = Normal l)
  /\ (exists l, getColorColors this = Normal l)
  /\ (exists l, getColors this = Normal l)
  /\ (exists urls, getFontUrls this = Normal urls)
  /\ (exists l, getFontsNotInUse this = Normal l)
  /\ (exists l, getFonts this = Normal l)
  /\ (exists l, getSpacings localeCompare this = Normal l)
  /\ (forall hash ds,
         filter (is_declaration_of "src") ds = [] ->
         add_font_url hash (FontFace ds)
         = Normal (Obj.assign hash (Obj.key_of (last_value "font-family" ds))
                              (JString EmptyString)))
  /\ (forall hash r, exists hash', add_font_url hash r = Normal hash')
  /\ (forall before r after props sizes families,
         getFontUrls (document (before ++ FontFace r :: after) props sizes families)
         = (hash <- getFontUrls (document before props sizes families) ;;
            hash' <- add_font_url hash (FontFace r) ;;
            Arr.reduceM add_font_url (filter is_font_face after) hash'))
  /\ (Obj.get (properties (statistics this)) "margin" = None ->
      Obj.get (properties (statistics this)) "padding" = None ->
      getSpacings localeCompare this = Normal []).
Proof.
  split; [eexists; apply getBackgroundColors_run|].
  split; [eexists; apply getColorColors_run|].
  split; [eexists; apply getColors_run|].
  split; [eexists; apply getFontUrls_run|].
  split; [eexists; apply getFontsNotInUse_run|].
  split; [eexists; apply getFonts_run|].
  split; [eexists; apply getSpacings_run|].
  split; [|split; [|split]].
  - intros hash ds H. rewrite add_font_url_run. unfold url_of, last_value at 2.
    cbn [declarations_of]. rewrite H. reflexivity.
  - intros hash r. eexists. apply add_font_url_run.
  - intros before r after props sizes families.
    unfold getFontUrls, document. cbn [cssAst].
    rewrite filter_app. cbn [filter is_font_face].
    rewrite !reduce_font_urls. unfold bind. rewrite add_font_url_run, reduce_font_urls.
    rewrite fold_left_app. reflexivity.
  - intros Hm Hp. unfold getSpacings. rewrite Hm, Hp. reflexivity.
Qed.

(** C9 fails as stated: a [font-face] rule without a [font-family]
    declaration gets no empty value for the missing family; its URL is stored
    under the key [undefined]. *)
Lemma nameless_font_face :
  getFontUrls nameless_doc
  = Normal [("undefined", JString "a.woff"); ("B", JString "b.woff")]
  /\ "undefined" <> EmptyString.
Proof. split; [vm_compute; reflexivity | discriminate]. Qed.



(** * Further properties of the program *)

(** ** [unique] *)

Section UniqueFacts.
Context {A : Type}.
Variable eqb : A -> A -> bool.
Hypothesis eqb_spec : forall x y, eqb x y = true <-> x = y.

Lemma eqb_same (x : A) : eqb x x = true.
Proof. apply eqb_spec. reflexivity. Qed.

Lemma mem_seen (seen : list A) (y : A) :
  existsb (eqb y) seen = true <-> In y seen.
Proof.
  rewrite existsb_exists. split.
  - intros [x [H1 H2]]. apply eqb_spec in H2. subst. exact H1.
  - intro H. exists y. split; [exact H | apply eqb_same].
Qed.

(** The test of [unique] at position [length seen] of [seen ++ y :: l]. *)
Lemma unique_test (seen l : list A) (y : A) :
  (Arr.indexOf eqb (seen ++ y :: l) y =? Z.of_nat (List.length seen))
  = negb (existsb (eqb y) seen).
Proof.
  destruct (existsb (eqb y) seen) eqn:E; simpl.
  - apply mem_seen in E. apply Z.eqb_neq. unfold Arr.indexOf.
    rewrite (index_from_app_present eqb eqb_spec) by exact E.
    pose proof (index_from_present eqb eqb_spec 0 y seen E). lia.
  - assert (H : ~ In y seen) by (intro H; apply mem_seen in H; congruence).
    apply Z.eqb_eq. unfold Arr.indexOf.
    rewrite (index_from_app_absent eqb eqb_spec) by exact H.
    simpl. rewrite eqb_same. lia.
Qed.

Lemma unique_after_cons (seen l : list A) (x : A) :
  unique_after eqb seen (x :: l)
  = if existsb (eqb x) seen then unique_after eqb (seen ++ [x]) l
    else x :: unique_after eqb (seen ++ [x]) l.
Proof.
  unfold unique_after. cbn [Arr.filteri_from]. rewrite unique_test.
  replace (Z.of_nat (List.length seen) + 1) with (Z.of_nat (List.length (seen ++ [x])))
    by (rewrite length_app; simpl; lia).
  replace (seen ++ x :: l) with ((seen ++ [x]) ++ l) by (rewrite <- app_assoc; reflexivity).
  destruct (existsb (eqb x) seen); reflexivity.
Qed.

Lemma filter_not_seen (seen : list A) (x : A) (l : list A) :
  filter (fun y => negb (existsb (eqb y) (seen ++ [x]))) l
  = filter (fun y => negb (existsb (eqb y) seen)) (filter (fun y => negb (eqb y x)) l).
Proof.
  induction l as [|y l IH]; [reflexivity|].
  cbn [filter]. rewrite existsb_app. cbn [existsb]. rewrite orb_false_r.
  destruct (eqb y x); cbn [negb filter].
  - rewrite orb_true_r. exact IH.
  - rewrite orb_false_r. destruct (existsb (eqb y) seen); cbn [negb]; rewrite IH; reflexivity.
Qed.

Lemma unique_after_filter (l seen : list A) :
  unique_after eqb seen l
  = filter (fun y => negb (existsb (eqb y) seen)) (unique_after eqb [] l).
Proof.
  revert seen. induction l as [|x l IH]; intro seen; [reflexivity|].
  rewrite (unique_after_cons seen), (unique_after_cons []).
  cbn [existsb app]. rewrite (IH (seen ++ [x])), (IH [x]).
  rewrite (filter_not_seen seen x). cbn [filter]. cbn [existsb]. 
  assert (E : filter (fun y => negb (eqb y x || false)) (unique_after eqb [] l)
              = filter (fun y => negb (eqb y x)) (unique_after eqb [] l)).
  { apply filter_ext. intro y. rewrite orb_false_r. reflexivity. }
  rewrite E.
  destruct (existsb (eqb x) seen); [reflexivity|]. cbn [negb]. reflexivity.
Qed.

Lemma unique_cons (x : A) (l : list A) :
  unique eqb (x :: l) = x :: filter (fun y => negb (eqb y x)) (unique eqb l).
Proof.
  change (unique eqb (x :: l)) with (unique_after eqb [] (x :: l)).
  change (unique eqb l) with (unique_after eqb [] l).
  rewrite unique_after_cons. cbn [existsb app].
  rewrite (unique_after_filter l [x]). f_equal.
  apply filter_ext. intro y. cbn [existsb]. rewrite orb_false_r. reflexivity.
Qed.

Lemma unique_fixed (l : list A) : NoDup l -> unique eqb l = l.
Proof.
  induction 1 as [|x l Hx _ IH]; [reflexivity|].
  rewrite unique_cons, IH. f_equal.
  apply forallb_filter_id. apply forallb_forall. intros y Hy.
  destruct (eqb y x) eqn:E; [|reflexivity].
  apply eqb_spec in E. subst y. contradiction.
Qed.

Lemma unique_fixed_iff (l : list A) : unique eqb l = l <-> NoDup l.
Proof.
  split; [|apply unique_fixed].
  intro H. rewrite <- H. apply (unique_NoDup eqb eqb_spec).
Qed.

Lemma unique_idempotent (l : list A) : unique eqb (unique eqb l) = unique eqb l.
Proof. apply unique_fixed, (unique_NoDup eqb eqb_spec). Qed.

End UniqueFacts.

(** X1: [unique] keeps the first occurrence of every element, in the order
    of the array: the result for [x :: l] is [x] followed by the result for
    [l] without [x]. This holds for arrays of strings and for arrays of
    values that may be [undefined]. *)
Theorem unique_keeps_first_occurrences :
  (forall (x : string) (l : list string),
      unique String.eqb (x :: l)
      = x :: filter (fun y => negb (String.eqb y x)) (unique String.eqb l))
  /\ (forall (v : jsval) (l : list jsval),
         unique jsval_eqb (v :: l)
         = v :: filter (fun w => negb (jsval_eqb w v)) (unique jsval_eqb l))
  /\ unique String.eqb [] = [] /\ unique jsval_eqb [] = [].
Proof.
  split; [|split; [|split]]; try reflexivity.
  - apply unique_cons. exact string_eqb_spec.
  - apply unique_cons. exact jsval_eqb_spec.
Qed.

(** X2: [unique] changes nothing in its own result, and an array is left
    as it is exactly when it holds no element twice. *)
Theorem unique_idempotent_and_fixed :
  (forall l : list string, unique String.eqb (unique String.eqb l) = unique String.eqb l)
  /\ (forall l : list jsval, unique jsval_eqb (unique jsval_eqb l) = unique jsval_eqb l)
  /\ (forall l : list string, unique String.eqb l = l <-> NoDup l)
  /\ (forall l : list jsval, unique jsval_eqb l = l <-> NoDup l).
Proof.
  split; [|split; [|split]].
  - apply unique_idempotent. exact string_eqb_spec.
  - apply unique_idempotent. exact jsval_eqb_spec.
  - apply unique_fixed_iff. exact string_eqb_spec.
  - apply unique_fixed_iff. exact jsval_eqb_spec.
Qed.

(** ** [isHackyColor] *)

(** X3: [isHackyColor] raises a type error for [undefined]; for a string it
    does not raise, and it answers true exactly when the string begins with
    [#] and does not go on with exactly three or exactly six hexadecimal
    digits; a string that does not begin with [#] is never a hack. *)
Theorem isHackyColor_behaviour :
  isHackyColor JUndefined = Throw TypeError
  /\ (forall c, isHackyColor (JString c) = Normal (is_hacky c))
  /\ (forall c, is_hacky c = String.prefix "#" c && negb (is_hex_color c))
  /\ (forall c, String.prefix "#" c = false -> isHackyColor (JString c) = Normal false).
Proof.
  assert (H : forall c, is_hacky c = String.prefix "#" c && negb (is_hex_color c)).
  { intro c. destruct c as [|a s]; [reflexivity|].
    destruct (ascii_dec a "#") as [E|E].
    - subst a. destruct s; reflexivity.
    - assert (P : String.prefix "#" (String a s) = false).
      { destruct (String.prefix "#" (String a s)) eqn:P; [|reflexivity].
        apply prefix_iff in P. destruct P as [b P]. simpl in P. congruence. }
      rewrite P. destruct a as [[] [] [] [] [] [] [] []]; try reflexivity.
      exfalso. apply E. reflexivity. }
  split; [reflexivity|]. split; [apply isHackyColor_string|]. split; [exact H|].
  intros c P. rewrite isHackyColor_string, H, P. reflexivity.
Qed.

(** X4: a colour in the notation with an alpha channel, [#] and four or
    eight characters, counts as a hack, and so it is in none of the lists of
    colours. *)
Theorem alpha_hex_colors_dropped (this : StyleGuide) (body : string) :
  String.length body = 4%nat \/ String.length body = 8%nat ->
  isHackyColor (JString (String "#" body)) = Normal true
  /\ exists text background all,
       getColorColors this = Normal text
       /\ getBackgroundColors this = Normal background
       /\ getColors this = Normal all
       /\ ~ In (JString (String "#" body)) text
       /\ ~ In (JString (String "#" body)) background
       /\ ~ In (JString (String "#" body)) all.
Proof.
  intro Hlen.
  assert (Hh : is_hacky (String "#" body) = true).
  { change (is_hacky (String "#" body)) with (negb (is_hex_color (String "#" body))).
    rewrite is_hex_color_hash.
    destruct Hlen as [H|H]; rewrite H; reflexivity. }
  split; [rewrite isHackyColor_string, Hh; reflexivity|].
  assert (H : forall name, ~ In (JString (String "#" body)) (colors_of this name)).
  { intros name H. apply colors_of_In in H. cbn [hacky_value] in H.
    destruct H as [_ [_ [H _]]]. congruence. }
  exists (colors_of this "color"), (colors_of this "background-color").
  eexists. split; [apply getColorColors_run|]. split; [apply getBackgroundColors_run|].
  split; [apply getColors_run|]. split; [apply H|]. split; [apply H|].
  intro K. apply all_colors_In in K. destruct K as [K|K]; exact (H _ K).
Qed.

Lemma alpha_hex_colors_dropped_witness :
  isHackyColor (JString "#fff8") = Normal true
  /\ exists text background all,
       getColorColors hack_doc = Normal text
       /\ getBackgroundColors hack_doc = Normal background
       /\ getColors hack_doc = Normal all
       /\ ~ In (JString "#fff8") text
       /\ ~ In (JString "#fff8") background
       /\ ~ In (JString "#fff8") all.
Proof. apply (alpha_hex_colors_dropped hack_doc "fff8"). left. reflexivity. Defined.

(** ** The comparison functions *)

Lemma round_aux_sign (m e : Z) (l : location) :
  Num.is_pos (binary_round_aux Num.prec Num.emax false m e l)
  = Num.is_neg (binary_round_aux Num.prec Num.emax true m e l).
Proof.
  unfold binary_round_aux.
  destruct (shr_fexp Num.prec Num.emax m e l) as [mrs' e'].
  destruct (shr_fexp Num.prec Num.emax _ e' loc_Exact) as [mrs'' e''].
  destruct (shr_m mrs''); [reflexivity| |reflexivity].
  destruct (e'' <=? Num.emax - Num.prec); reflexivity.
Qed.

Lemma round_aux_positive (m e : Z) (l : location) :
  Num.is_neg (binary_round_aux Num.prec Num.emax false m e l) = false.
Proof.
  unfold binary_round_aux.
  destruct (shr_fexp Num.prec Num.emax m e l) as [mrs' e'].
  destruct (shr_fexp Num.prec Num.emax _ e' loc_Exact) as [mrs'' e''].
  destruct (shr_m mrs''); [reflexivity| |reflexivity].
  destruct (e'' <=? Num.emax - Num.prec); reflexivity.
Qed.

Lemma normalize_sign (m e : Z) :
  Num.is_pos (binary_normalize Num.prec Num.emax m e false)
  = Num.is_neg (binary_normalize Num.prec Num.emax (- m) e false).
Proof.
  destruct m as [|p|p]; simpl; unfold binary_round.
  - reflexivity.
  - destruct (shl_align _ _ _) as [mz ez]. apply round_aux_sign.
  - destruct (shl_align _ _ _) as [mz ez].
    rewrite round_aux_negative, round_aux_positive. reflexivity.
Qed.

(** [x - y] is positive exactly when [y - x] is negative. *)
Lemma sub_antisym (x y : Num.num) :
  Num.is_pos (Num.sub x y) = Num.is_neg (Num.sub y x).
Proof.
  unfold Num.sub.
  destruct x as [sx|sx| |sx mx ex], y as [sy|sy| |sy my ey];
    try (destruct sx, sy; reflexivity);
    try (destruct sx; reflexivity);
    try (destruct sy; reflexivity);
    try reflexivity.
  cbn [SFsub]. cbv zeta. rewrite normalize_sign, (Z.min_comm ey ex).
  f_equal. f_equal. lia.
Qed.

(** [x - x] is zero or NaN. *)
Lemma sub_self (x : Num.num) :
  Num.is_pos (Num.sub x x) = false /\ Num.is_neg (Num.sub x x) = false.
Proof.
  unfold Num.sub. destruct x as [s|s| |s m e]; try (destruct s; split; reflexivity);
    [split; reflexivity|].
  cbn [SFsub]. cbv zeta. rewrite Z.sub_diag. split; reflexivity.
Qed.

(** X5: each of the two comparison functions finds a value equal to
    itself: the result is neither positive nor negative, whatever the root
    size and the collation (which is not consulted). *)
Theorem comparisons_reflexive
  (localeCompare : string -> string -> Num.num) (rootFontSize : Num.num) (item : string) :
  Num.is_pos (sortUnitValues localeCompare item item) = false
  /\ Num.is_neg (sortUnitValues localeCompare item item) = false
  /\ sortUnitValues localeCompare item item
     = Num.sub (Num.parseFloat item) (Num.parseFloat item)
  /\ Num.is_pos (sortScalableFontSizes rootFontSize item item) = false
  /\ Num.is_neg (sortScalableFontSizes rootFontSize item item) = false.
Proof.
  assert (E : sortUnitValues localeCompare item item
              = Num.sub (Num.parseFloat item) (Num.parseFloat item)).
  { unfold sortUnitValues. rewrite String.eqb_refl. reflexivity. }
  rewrite E. unfold sortScalableFontSizes.
  split; [apply sub_self|]. split; [apply sub_self|]. split; [reflexivity|].
  split; apply sub_self.
Qed.

(** X6: [sortScalableFontSizes] is antisymmetric: it puts [size1] after
    [size2] exactly when, asked the other way round, it puts [size2] before
    [size1]; so it never orders two sizes both ways. *)
Theorem sortScalableFontSizes_antisymmetric (rootFontSize : Num.num) (size1 size2 : string) :
  Num.is_pos (sortScalableFontSizes rootFontSize size1 size2)
  = Num.is_neg (sortScalableFontSizes rootFontSize size2 size1)
  /\ Num.is_pos (sortScalableFontSizes rootFontSize size1 size2)
     && Num.is_pos (sortScalableFontSizes rootFontSize size2 size1) = false.
Proof.
  unfold sortScalableFontSizes. split; [apply sub_antisym|].
  destruct (Num.is_pos (Num.sub _ _)) eqn:E; [|reflexivity].
  simpl. apply sub_pos_asym. exact E.
Qed.

(** X7: when the collation is antisymmetric, so is [sortUnitValues]. *)
Theorem sortUnitValues_antisymmetric
  (localeCompare : string -> string -> Num.num) (item1 item2 : string) :
  (forall a b, Num.is_pos (localeCompare a b) = Num.is_neg (localeCompare b a)) ->
  Num.is_pos (sortUnitValues localeCompare item1 item2)
  = Num.is_neg (sortUnitValues localeCompare item2 item1).
Proof.
  intro H. unfold sortUnitValues.
  rewrite (String.eqb_sym (Regex.remove_first unitRegex item2)).
  destruct (String.eqb _ _); simpl; [apply sub_antisym | apply H].
Qed.

Lemma code_unit_order_antisym (a b : string) :
  Num.is_pos (code_unit_order a b) = Num.is_neg (code_unit_order b a).
Proof.
  unfold code_unit_order. rewrite (String.compare_antisym b a).
  destruct (String.compare a b); reflexivity.
Qed.

Lemma sortUnitValues_antisymmetric_witness :
  Num.is_pos (sortUnitValues code_unit_order "medium" "large")
  = Num.is_neg (sortUnitValues code_unit_order "large" "medium").
Proof.
  apply (sortUnitValues_antisymmetric code_unit_order "medium" "large").
  exact code_unit_order_antisym.
Defined.

Lemma keyword_no_match (s : string) :
  forall i, is_keyword s = true -> Regex.exec_from unitRegex i s = None.
Proof.
  induction s as [|c s IH]; intros i H; [reflexivity|].
  unfold is_keyword in H. simpl in H. apply andb_true_iff in H. destruct H as [Hc Hs].
  apply negb_true_iff in Hc.
  unfold unitRegex, Regex.plus. cbn [Regex.exec_from].
  change (Regex.run (Regex.Seq ?g ?t) ?st) with (flat_map (Regex.run t) (Regex.run g st)).
  change (Regex.run (Regex.Group ?r) (Regex.mkState i (String c s) JUndefined))
    with (map (fun st' => Regex.mkState (Regex.index st') (Regex.rest st')
                 (JString (Str.firstn (Regex.index st' - i) (String c s))))
              (Regex.run r (Regex.mkState i (String c s) JUndefined))).
  change (Regex.run (Regex.Seq ?a ?b) ?st) with (flat_map (Regex.run b) (Regex.run a st)).
  cbn [Regex.run Regex.rest]. rewrite Hc. cbn [flat_map map].
  apply (IH (S i) Hs).
Qed.

Lemma keyword_unit (item : string) :
  is_keyword item = true -> Regex.remove_first unitRegex item = item.
Proof.
  intro H. unfold Regex.remove_first, Regex.exec. rewrite keyword_no_match by exact H.
  reflexivity.
Qed.

(** X8: a value without a sign, a digit or a dot, such as a keyword, is
    its own unit for [sortUnitValues]; two different values of this kind are
    compared by the collation alone. *)
Theorem sortUnitValues_keywords
  (localeCompare : string -> string -> Num.num) (item1 item2 : string) :
  is_keyword item1 = true -> is_keyword item2 = true -> item1 <> item2 ->
  Regex.remove_first unitRegex item1 = item1
  /\ Regex.remove_first unitRegex item2 = item2
  /\ sortUnitValues localeCompare item1 item2 = localeCompare item1 item2.
Proof.
  intros H1 H2 Hne. split; [apply keyword_unit, H1|]. split; [apply keyword_unit, H2|].
  unfold sortUnitValues. rewrite (keyword_unit item1 H1), (keyword_unit item2 H2).
  destruct (String.eqb_spec item1 item2); [contradiction | reflexivity].
Qed.

Lemma sortUnitValues_keywords_witness :
  Regex.remove_first unitRegex "medium" = "medium"
  /\ Regex.remove_first unitRegex "large" = "large"
  /\ sortUnitValues code_unit_order "medium" "large" = code_unit_order "medium" "large".
Proof.
  apply (sortUnitValues_keywords code_unit_order "medium" "large");
    [reflexivity | reflexivity | discriminate].
Defined.

(** ** Root font size over several sheets *)

Lemma pop_app {A : Type} (l1 l2 : list A) :
  Arr.pop (l1 ++ l2) = match l2 with [] => Arr.pop l1 | _ => Arr.pop l2 end.
Proof.
  destruct l2 as [|x l2]; [rewrite app_nil_r; reflexivity|].
  unfold Arr.pop. rewrite rev_app_distr.
  destruct (rev (x :: l2)) as [|y r] eqn:E; [|reflexivity].
  apply (f_equal (@List.length A)) in E. rewrite length_rev in E. discriminate.
Qed.

(** X9: when the rules of one sheet are followed by those of another, the
    root font size is that of the second sheet if it declares a font size of
    a lone [html] selector, and that of the first sheet otherwise. *)
Theorem root_font_size_of_sheets
  (rules1 rules2 : list rule) (props : Obj.obj (list jsval)) (sizes families : list string) :
  html_font_sizes (document (rules1 ++ rules2) props sizes families)
  = html_font_sizes (document rules1 props sizes families)
    ++ html_font_sizes (document rules2 props sizes families)
  /\ getRootFontSize (document (rules1 ++ rules2) props sizes families)
     = match html_font_sizes (document rules2 props sizes families) with
       | [] => getRootFontSize (document rules1 props sizes families)
       | _ :: _ => getRootFontSize (document rules2 props sizes families)
       end.
Proof.
  assert (E : html_font_sizes (document (rules1 ++ rules2) props sizes families)
              = html_font_sizes (document rules1 props sizes families)
                ++ html_font_sizes (document rules2 props sizes families)).
  { unfold html_font_sizes, document. cbn [cssAst]. apply flat_map_app. }
  split; [exact E|].
  rewrite !getRootFontSize_run, E, pop_app.
  destruct (html_font_sizes (document rules2 props sizes families)); reflexivity.
Qed.

(** ** Font sizes *)

Lemma filter_partition_perm {A : Type} (f : A -> bool) (l : list A) :
  Permutation (filter f l ++ filter (fun x => negb (f x)) l) l.
Proof.
  induction l as [|x l IH]; [constructor|].
  cbn [filter]. destruct (f x); cbn [negb app].
  - apply perm_skip. exact IH.
  - apply Permutation_sym. apply Permutation_cons_app. apply Permutation_sym. exact IH.
Qed.

Lemma not_scalable_spec (size : string) :
  (Str.indexOf size "rem" <? 0) && (Str.indexOf size "px" <? 0) = negb (is_scalable size).
Proof.
  unfold is_scalable. rewrite negb_orb, !Z.leb_antisym, !negb_involutive. reflexivity.
Qed.

(** X10: the two lists that [generateStyleGuide] shows, the sizes of
    [scaleFontSizes] and those of [filterScalableFontSizes], share the font
    sizes between them: together they are the given sizes, each as often as
    it is given, and no size is in both. *)
Theorem font_sizes_partition
  (localeCompare : string -> string -> Num.num) (fontSizes : list string) (rootSize : string) :
  Permutation (map snd (scaleFontSizes fontSizes rootSize)
               ++ filterScalableFontSizes localeCompare fontSizes)
              fontSizes
  /\ (forall size, ~ (In size (map snd (scaleFontSizes fontSizes rootSize))
                      /\ In size (filterScalableFontSizes localeCompare fontSizes)))
  /\ (List.length (scaleFontSizes fontSizes rootSize)
      + List.length (filterScalableFontSizes localeCompare fontSizes)
      = List.length fontSizes)%nat.
Proof.
  assert (P1 : Permutation (map snd (scaleFontSizes fontSizes rootSize))
                           (filter is_scalable fontSizes)).
  { rewrite scaleFontSizes_originals.
    eapply Permutation_trans; [apply Permutation_sym, Permutation_rev | apply sort_perm]. }
  assert (P2 : Permutation (filterScalableFontSizes localeCompare fontSizes)
                           (filter (fun x => negb (is_scalable x)) fontSizes)).
  { unfold filterScalableFontSizes.
    eapply Permutation_trans; [apply Permutation_sym, Permutation_rev|].
    eapply Permutation_trans; [apply sort_perm|].
    erewrite filter_ext; [apply Permutation_refl|]. apply not_scalable_spec. }
  assert (P : Permutation (map snd (scaleFontSizes fontSizes rootSize)
                           ++ filterScalableFontSizes localeCompare fontSizes) fontSizes).
  { eapply Permutation_trans; [apply Permutation_app; eassumption|].
    apply filter_partition_perm. }
  split; [exact P|]. split.
  - intros size [H1 H2].
    apply (Permutation_in _ P1) in H1. apply (Permutation_in _ P2) in H2.
    apply filter_In in H1, H2. destruct H1 as [_ H1], H2 as [_ H2].
    rewrite H1 in H2. discriminate.
  - apply Permutation_length in P. rewrite length_app, length_map in P. exact P.
Qed.

(** X11: [getFontSizes] returns the sizes of the aggregator that are not
    excluded values, and doing the same again with its result changes
    nothing. *)
Theorem getFontSizes_members (this : StyleGuide) :
  (forall size, In size (getFontSizes this) <->
                In size (getAllFontSizes (statistics this))
                /\ ~ In (JString size) excludedValues)
  /\ (forall rules props families,
         getFontSizes (document rules props (getFontSizes this) families)
         = getFontSizes this).
Proof.
  split.
  - intro size. unfold getFontSizes.
    rewrite filter_In, (unique_In String.eqb string_eqb_spec), not_excluded_spec. tauto.
  - intros rules props families.
    unfold getFontSizes at 1. unfold document. cbn [statistics getAllFontSizes].
    rewrite (unique_fixed String.eqb string_eqb_spec)
      by (apply getFontSizes_canonical).
    apply forallb_filter_id. apply forallb_forall. intros size H.
    unfold getFontSizes in H. apply filter_In in H. tauto.
Qed.

(** ** Fonts *)

(** X12: [getFontsInUse] returns the names of all font stacks, a name
    being a part between commas without the white space around it; no name of
    the list holds a comma or begins or ends with white space, and the list
    is in strictly ascending order of the code units. *)
Theorem getFontsInUse_names_sorted (this : StyleGuide) :
  (forall name, In name (getFontsInUse this) <->
                exists stack, In stack (getFontFamilies this)
                              /\ In name (map Str.trim (Str.split "," stack)))
  /\ (forall name, In name (getFontsInUse this) ->
                   Str.has_char "," name = false /\ Str.trim name = name)
  /\ ascending (getFontsInUse this).
Proof.
  split; [apply getFontsInUse_In|]. split.
  - intros name H. pose proof (getFontsInUse_names this) as Hn.
    rewrite Forall_forall in Hn. exact (Hn name H).
  - unfold getFontsInUse. apply sort_ascending, unique_NoDup. exact string_eqb_spec.
Qed.

Lemma get_assign_same {V : Type} (o : Obj.obj V) (k : string) (v : V) :
  k <> "__proto__" -> Obj.get (Obj.assign o k v) k = Some v.
Proof.
  intro H. unfold Obj.assign.
  destruct (String.eqb_spec k "__proto__"); [contradiction | apply get_set_same].
Qed.

Lemma get_assign_other {V : Type} (o : Obj.obj V) (k k' : string) (v : V) :
  k' <> k -> Obj.get (Obj.assign o k v) k' = Obj.get o k'.
Proof.
  intro H. unfold Obj.assign.
  destruct (String.eqb k "__proto__"); [reflexivity | apply get_set_other, H].
Qed.

Lemma fold_step_get_other (l : list rule) (h : Obj.obj jsval) (k : string) :
  (forall r, In r l -> family_key r <> k) ->
  Obj.get (fold_left font_url_step l h) k = Obj.get h k.
Proof.
  revert h; induction l as [|r l IH]; intros h H; [reflexivity|].
  simpl. rewrite IH by (intros r' Hr'; apply H; right; exact Hr').
  unfold font_url_step. apply get_assign_other.
  intro E. apply (H r); [left; reflexivity | symmetry; exact E].
Qed.

(** X13: when several [font-face] rules declare the same family, the map
    of [getFontUrls] holds the URL of the last of them: the URL of a rule is
    found under its family when no later [font-face] rule has the same
    family. *)
Theorem last_font_face_wins
  (before after : list rule) (ds : list declaration)
  (props : Obj.obj (list jsval)) (sizes families : list string) :
  family_key (FontFace ds) <> "__proto__" ->
  (forall r, In r after -> is_font_face r = true -> family_key r <> family_key (FontFace ds)) ->
  exists urls,
    getFontUrls (document (before ++ FontFace ds :: after) props sizes families) = Normal urls
    /\ Obj.get urls (family_key (FontFace ds)) = Some (url_of ds).
Proof.
  intros Hk Hafter. eexists. split; [apply getFontUrls_run|].
  unfold font_urls_of, document. cbn [cssAst]. fold font_url_step.
  rewrite filter_app. cbn [filter is_font_face]. rewrite fold_left_app. cbn [fold_left].
  rewrite fold_step_get_other.
  - unfold font_url_step at 1. cbn [declarations_of]. apply get_assign_same. exact Hk.
  - intros r Hr. apply filter_In in Hr. apply Hafter; tauto.
Qed.

Lemma last_font_face_wins_witness :
  exists urls,
    getFontUrls (document ([FontFace [Declaration "font-family" "B"; Declaration "src" "url(old.woff)"]]
                           ++ FontFace [Declaration "font-family" "B"; Declaration "src" "url(b.woff)"]
                           :: [Rule ["p"] [Declaration "font-family" "B"]])
                          [] [] ["B"])
    = Normal urls
    /\ Obj.get urls "B" = Some (JString "b.woff").
Proof.
  apply (last_font_face_wins
           [FontFace [Declaration "font-family" "B"; Declaration "src" "url(old.woff)"]]
           [Rule ["p"] [Declaration "font-family" "B"]]
           [Declaration "font-family" "B"; Declaration "src" "url(b.woff)"] [] [] ["B"]).
  - discriminate.
  - intros r [E|[]] H. subst r. discriminate.
Defined.

(** ** The URL of a [src] value *)

Lemma plain_not_tail (c : ascii) (s : string) :
  plain_char c = true -> ~ tail_ok (String c s).
Proof.
  unfold plain_char. rewrite !andb_true_iff, !negb_true_iff.
  intros [[[_ Hq] Hm] Hp] [H|[d [r' [E _]]]].
  - cbn [closes] in H. rewrite Hp, Hq in H. discriminate.
  - injection E as E _. subst c. discriminate.
Qed.

Lemma group_head_plain (path : string) :
  forall (pre : string) (i : nat) (tl : string),
    all_chars plain_char path = true -> closes tl = true ->
    exists y l,
      flat_map (Regex.run tail_re) (group_states pre i (path ++ tl)) = y :: l
      /\ Regex.capture y = JString (pre ++ path).
Proof.
  induction path as [|c path IH]; intros pre i tl Hp Hc.
  - cbn [append].
    assert (Hne : Regex.run tail_re (Regex.mkState i tl (JString pre)) <> []).
    { intro E. apply run_tail_empty in E. apply E. left. exact Hc. }
    destruct (Regex.run tail_re (Regex.mkState i tl (JString pre))) as [|y l] eqn:E;
      [contradiction|].
    assert (Hy : In y (Regex.run tail_re (Regex.mkState i tl (JString pre))))
      by (rewrite E; left; reflexivity).
    apply run_tail_capture in Hy.
    destruct tl as [|t tl]; [discriminate|].
    cbn [group_states flat_map]. rewrite E. eexists; eexists. split; [reflexivity|].
    rewrite Hy. cbn [Regex.capture]. f_equal.
    clear. induction pre as [|x pre IH]; simpl; congruence.
  - simpl in Hp. apply andb_true_iff in Hp. destruct Hp as [Hc1 Hp].
    cbn [append group_states flat_map].
    assert (E : Regex.run tail_re (Regex.mkState i (String c (path ++ tl)) (JString pre)) = []).
    { apply run_tail_empty. apply plain_not_tail. exact Hc1. }
    rewrite E. cbn [app].
    assert (Hd : is_dot c = true).
    { unfold plain_char in Hc1. rewrite !andb_true_iff in Hc1. tauto. }
    rewrite Hd.
    destruct (IH (pre ++ String c EmptyString)%string (S i) tl Hp Hc) as [y [l [H1 H2]]].
    exists y, l. split; [exact H1|]. rewrite H2. f_equal.
    rewrite append_assoc. reflexivity.
Qed.

Lemma exec_of_head (r : Regex.re) (s : string) (y : Regex.state) (l : list Regex.state) :
  Regex.run r (Regex.mkState 0 s JUndefined) = y :: l ->
  exists m, Regex.exec r s = Some m /\ Regex.m_group1 m = Regex.capture y.
Proof.
  intro H. unfold Regex.exec. destruct s; cbn [Regex.exec_from]; rewrite H;
    eexists; split; reflexivity.
Qed.

Lemma run_seq (a b : Regex.re) (st : Regex.state) :
  Regex.run (Regex.Seq a b) st = flat_map (Regex.run b) (Regex.run a st).
Proof. reflexivity. Qed.

Lemma run_class_hit (p : ascii -> bool) (i : nat) (c : ascii) (s : string) (cap : jsval) :
  p c = true ->
  Regex.run (Regex.Class p) (Regex.mkState i (String c s) cap) = [Regex.mkState (S i) s cap].
Proof. intro H. cbn [Regex.run Regex.rest Regex.index Regex.capture]. rewrite H. reflexivity. Qed.

Lemma run_opt (r : Regex.re) (st : Regex.state) :
  Regex.run (Regex.opt r) st = (Regex.run r st ++ [st])%list.
Proof. reflexivity. Qed.

(** The matches of the pattern at the head of [url(] followed by [s]: those
    of the group and of what follows it, after the optional quote. *)
Lemma url_run_after_paren (s : string) :
  Regex.run urlRegex (Regex.mkState 0 (String "u" (String "r" (String "l" (String "(" s)))) JUndefined)
  = flat_map (fun st => flat_map (Regex.run tail_re)
                          (group_states EmptyString (Regex.index st) (Regex.rest st)))
             (Regex.run (Regex.opt (Regex.Class is_quote)) (Regex.mkState 4 s JUndefined)).
Proof.
  unfold urlRegex, Regex.chr_i, Regex.chr, Regex.space.
  rewrite run_seq, run_class_hit by reflexivity. cbn [flat_map]. rewrite app_nil_r.
  rewrite run_seq, run_class_hit by reflexivity. cbn [flat_map]. rewrite app_nil_r.
  rewrite run_seq, run_class_hit by reflexivity. cbn [flat_map]. rewrite app_nil_r.
  rewrite run_seq, run_star_class. cbn [star_states].
  change (Str.is_space "(") with false. cbv iota. cbn [app flat_map]. rewrite app_nil_r.
  rewrite run_seq, run_class_hit by reflexivity. cbn [flat_map]. rewrite app_nil_r.
  rewrite run_seq. apply flat_map_ext. intros [i r cap].
  rewrite run_seq, run_group. reflexivity.
Qed.


Lemma url_of_head (ds : list declaration) (s path : string)
  (y : Regex.state) (l : list Regex.state) :
  Regex.run urlRegex
    (Regex.mkState 0 (String "u" (String "r" (String "l" (String "(" s)))) JUndefined)
  = y :: l ->
  Regex.capture y = JString path ->
  last_value "src" ds = JString ("url(" ++ s) ->
  url_of ds = JString path.
Proof.
  intros Hr Hy Hs. unfold url_of. rewrite Hs.
  destruct (exec_of_head urlRegex _ y l Hr) as [m [Hm Hg]].
  cbn [append]. rewrite Hm, Hg. exact Hy.
Qed.

(** The URL of a [src] value that is [url(], a plain path, [)] and anything
    is the path. *)
Lemma url_of_plain_path (ds : list declaration) (path rest : string) :
  all_chars plain_char path = true ->
  last_value "src" ds = JString ("url(" ++ path ++ String ")" rest) ->
  url_of ds = JString path.
Proof.
  intros Hp Hs.
  destruct (group_head_plain path EmptyString 4 (String ")" rest) Hp eq_refl)
    as [y [l [H1 H2]]].
  apply (url_of_head ds (path ++ String ")" rest)%string path y l); [|exact H2 | exact Hs].
  rewrite url_run_after_paren, run_opt.
  assert (Hq : Regex.run (Regex.Class is_quote)
                 (Regex.mkState 4 (path ++ String ")" rest) JUndefined) = []).
  { destruct path as [|c path]; cbn [append Regex.run Regex.rest]; [reflexivity|].
    simpl in Hp. apply andb_true_iff in Hp. destruct Hp as [Hc _].
    unfold plain_char in Hc. rewrite !andb_true_iff, !negb_true_iff in Hc.
    destruct Hc as [[[_ Hc] _] _]. rewrite Hc. reflexivity. }
  rewrite Hq. cbn [app flat_map Regex.index Regex.rest]. rewrite app_nil_r. exact H1.
Qed.

(** So it is when the path stands between two quote characters. *)
Lemma url_of_quoted_path (ds : list declaration) (path rest : string) (q q' : ascii) :
  all_chars plain_char path = true ->
  is_quote q = true -> is_quote q' = true ->
  last_value "src" ds = JString ("url(" ++ String q (path ++ String q' (String ")" rest))) ->
  url_of ds = JString path.
Proof.
  intros Hp Hq Hq' Hs.
  destruct (group_head_plain path EmptyString 5 (String q' (String ")" rest)) Hp)
    as [y [l [H1 H2]]].
  { cbn [closes]. rewrite Hq'. simpl. apply orb_true_r. }
  apply (url_of_head ds (String q (path ++ String q' (String ")" rest))) path y
           (l ++ flat_map (Regex.run tail_re)
                   (group_states EmptyString 4
                      (String q (path ++ String q' (String ")" rest))))));
    [|exact H2 | exact Hs].
  rewrite url_run_after_paren, run_opt.
  rewrite run_class_hit by exact Hq.
  cbn [app flat_map Regex.index Regex.rest]. rewrite app_nil_r, H1. reflexivity.
Qed.

(** X14: let the last [src] value of a [font-face] rule be [url(], a path
    of characters other than quotes, [?], [)] and line terminators, then [)]
    and anything, the path standing between two quote characters or between
    none. When the family of the rule is not [__proto__] and no later
    [font-face] rule has the same family, the map of [getFontUrls] holds
    exactly that path under the family of the rule. *)
Theorem url_path_extracted
  (before after : list rule) (ds : list declaration)
  (props : Obj.obj (list jsval)) (sizes families : list string) (path rest : string) :
  all_chars plain_char path = true ->
  (last_value "src" ds = JString ("url(" ++ path ++ String ")" rest)
   \/ exists q q',
        is_quote q = true /\ is_quote q' = true
        /\ last_value "src" ds
           = JString ("url(" ++ String q (path ++ String q' (String ")" rest)))) ->
  family_key (FontFace ds) <> "__proto__" ->
  (forall r, In r after -> is_font_face r = true -> family_key r <> family_key (FontFace ds)) ->
  exists urls,
    getFontUrls (document (before ++ FontFace ds :: after) props sizes families) = Normal urls
    /\ Obj.get urls (family_key (FontFace ds)) = Some (JString path).
Proof.
  intros Hp Hsrc Hk Hafter.
  assert (Hu : url_of ds = JString path).
  { destruct Hsrc as [Hs|[q [q' [Hq [Hq' Hs]]]]].
    - exact (url_of_plain_path ds path rest Hp Hs).
    - exact (url_of_quoted_path ds path rest q q' Hp Hq Hq' Hs). }
  eexists. split; [apply getFontUrls_run|].
  unfold font_urls_of, document. cbn [cssAst]. fold font_url_step.
  rewrite filter_app. cbn [filter is_font_face]. rewrite fold_left_app. cbn [fold_left].
  rewrite fold_step_get_other.
  - unfold font_url_step at 1. cbn [declarations_of]. rewrite Hu.
    apply get_assign_same. exact Hk.
  - intros r Hr. apply filter_In in Hr. apply Hafter; tauto.
Qed.

Lemma url_path_extracted_witness :
  all_chars plain_char "fonts/a.woff" = true
  /\ (exists urls,
        getFontUrls
          (document ([FontFace [Declaration "font-family" "A"; Declaration "src" "url(old.woff)"]]
                     ++ FontFace [Declaration "font-family" "A";
                                  Declaration "src" "url(fonts/a.woff) format('woff')"]
                     :: [Rule ["p"] [Declaration "font-family" "A"]])
                    [] [] ["A"])
        = Normal urls
        /\ Obj.get urls "A" = Some (JString "fonts/a.woff"))
  /\ (exists urls,
        getFontUrls
          (document ([] ++ FontFace [Declaration "font-family" "A";
                                     Declaration "src" "url('fonts/a.woff') format('woff')"]
                     :: [])
                    [] [] [])
        = Normal urls
        /\ Obj.get urls "A" = Some (JString "fonts/a.woff")).
Proof.
  split; [reflexivity|]. split.
  - apply (url_path_extracted
             [FontFace [Declaration "font-family" "A"; Declaration "src" "url(old.woff)"]]
             [Rule ["p"] [Declaration "font-family" "A"]]
             [Declaration "font-family" "A";
              Declaration "src" "url(fonts/a.woff) format('woff')"]
             [] [] ["A"] "fonts/a.woff" " format('woff')").
    + reflexivity.
    + left. reflexivity.
    + discriminate.
    + intros r [E|[]] H. subst r. discriminate.
  - apply (url_path_extracted [] []
             [Declaration "font-family" "A";
              Declaration "src" "url('fonts/a.woff') format('woff')"]
             [] [] [] "fonts/a.woff" " format('woff')").
    + reflexivity.
    + right. exists "'"%char, "'"%char. split; [reflexivity|]. split; reflexivity.
    + discriminate.
    + intros r [].
Defined.

(** X15: a [font-face] rule whose family holds a comma, or white space at
    its head or its end, is always in the list of [getFontsNotInUse]: the
    names of [getFontsInUse] are the parts between commas, trimmed, and the
    keys are compared with them as they are written. *)
Theorem font_stack_key_not_in_use (this : StyleGuide) (ds : list declaration) :
  In (FontFace ds) (cssAst this) ->
  Str.has_char "," (family_key (FontFace ds)) = true
  \/ Str.trim (family_key (FontFace ds)) <> family_key (FontFace ds) ->
  exists notInUse,
    getFontsNotInUse this = Normal notInUse /\ In (family_key (FontFace ds)) notInUse.
Proof.
  intros Hin Hk. eexists. split; [apply getFontsNotInUse_run|].
  apply fonts_not_in_use_In. split.
  - apply keys_In. unfold font_urls_of. fold font_url_step.
    apply fold_step_keys. right. exists (FontFace ds). split; [|split].
    + apply filter_font_face_In. exists ds. tauto.
    + reflexivity.
    + intro E. fold (family_key (FontFace ds)) in E. rewrite E in Hk.
      destruct Hk as [Hk|Hk]; [discriminate Hk | apply Hk; reflexivity].
  - intro Hu. pose proof (getFontsInUse_names this) as Hn.
    rewrite Forall_forall in Hn. destruct (Hn _ Hu) as [H1 H2].
    destruct Hk as [Hk|Hk]; [congruence | contradiction].
Qed.

Lemma font_stack_key_not_in_use_witness :
  exists notInUse,
    getFontsNotInUse
      (document [FontFace [Declaration "font-family" "Lato, sans-serif";
                           Declaration "src" "url(lato.woff)"];
                 Rule ["p"] [Declaration "font-family" "Lato, sans-serif"]]
                [] [] ["Lato, sans-serif"])
    = Normal notInUse
    /\ In "Lato, sans-serif" notInUse.
Proof.
  apply (font_stack_key_not_in_use
           (document [FontFace [Declaration "font-family" "Lato, sans-serif";
                                Declaration "src" "url(lato.woff)"];
                      Rule ["p"] [Declaration "font-family" "Lato, sans-serif"]]
                     [] [] ["Lato, sans-serif"])
           [Declaration "font-family" "Lato, sans-serif"; Declaration "src" "url(lato.woff)"]).
  - left. reflexivity.
  - left. reflexivity.
Defined.

(** ** [getCSS] *)

Lemma concat_cons (text : string) (texts : list string) :
  String.concat EmptyString (text :: texts) = (text ++ String.concat EmptyString texts)%string.
Proof.
  destruct texts as [|t ts]; simpl; [|reflexivity].
  induction text as [|c text IH]; simpl; congruence.
Qed.

Lemma concat_app (l1 l2 : list string) :
  String.concat EmptyString (l1 ++ l2)
  = (String.concat EmptyString l1 ++ String.concat EmptyString l2)%string.
Proof.
  induction l1 as [|x l1 IH]; [reflexivity|].
  change ((x :: l1) ++ l2)%list with (x :: (l1 ++ l2))%list.
  rewrite !concat_cons, IH, append_assoc. reflexivity.
Qed.

Lemma read_files_app (readFileSync : string -> option string) (files1 files2 : list string) :
  read_files readFileSync (files1 ++ files2) =
  match read_files readFileSync files1, read_files readFileSync files2 with
  | Some texts1, Some texts2 => Some (texts1 ++ texts2)%list
  | _, _ => None
  end.
Proof.
  induction files1 as [|f files1 IH]; simpl.
  - destruct (read_files readFileSync files2); reflexivity.
  - destruct (readFileSync f); [|reflexivity]. rewrite IH.
    destruct (read_files readFileSync files1), (read_files readFileSync files2); reflexivity.
Qed.

Lemma read_files_none (readFileSync : string -> option string) (files : list string) :
  read_files readFileSync files = None <->
  exists file, In file files /\ readFileSync file = None.
Proof.
  induction files as [|f files IH]; simpl.
  - split; [discriminate | intros [file [[] _]]].
  - destruct (readFileSync f) eqn:Ef.
    + destruct (read_files readFileSync files) eqn:Er.
      * split; [discriminate|]. intros [file [[E|H] Hf]]; [congruence|].
        assert (Hn : Some l = None) by (apply (proj2 IH); exists file; tauto).
        discriminate Hn.
      * split; [|reflexivity]. intros _. destruct (proj1 IH eq_refl) as [file [H Hf]].
        exists file. tauto.
    + split; [|reflexivity]. intros _. exists f. tauto.
Qed.

(** X16: [getCSS] of a list of files followed by another is the text of
    the first list followed by that of the second, and it fails when one of
    the two fails; [getCSS] fails exactly when one of the files cannot be
    read, and of no file it is the empty text. *)
Theorem getCSS_concatenates (readFileSync : string -> option string) (files1 files2 : list string) :
  getCSS readFileSync (files1 ++ files2) =
    match getCSS readFileSync files1, getCSS readFileSync files2 with
    | Some css1, Some css2 => Some (css1 ++ css2)%string
    | _, _ => None
    end
  /\ (getCSS readFileSync files1 = None <->
      exists file, In file files1 /\ readFileSync file = None)
  /\ getCSS readFileSync [] = Some EmptyString
  /\ getCSS two_files ["a.css"; "b.css"] = Some "a{color:red}b{color:blue}"
  /\ getCSS two_files ["a.css"; "c.css"; "b.css"] = None.
Proof.
  split; [|split; [|split; [|split]]]; try reflexivity.
  - unfold getCSS. rewrite read_files_app.
    destruct (read_files readFileSync files1), (read_files readFileSync files2); simpl;
      try reflexivity.
    rewrite concat_app. reflexivity.
  - rewrite <- read_files_none. unfold getCSS.
    destruct (read_files readFileSync files1); simpl; split; congruence.
Qed.

(** ** Colours as a set *)

Lemma compare_lt_asym (a b : string) :
  String.compare a b = Lt -> String.compare b a = Lt -> False.
Proof.
  intros H1 H2. rewrite (String.compare_antisym a b), H2 in H1. discriminate.
Qed.

Lemma compare_lt_irrefl (a : string) : String.compare a a <> Lt.
Proof. intro H. exact (compare_lt_asym a a H H). Qed.

(** Two strictly ascending lists with the same elements are the same. *)
Lemma ascending_ext (l1 : list string) :
  forall l2, ascending l1 -> ascending l2 -> (forall x, In x l1 <-> In x l2) -> l1 = l2.
Proof.
  unfold ascending.
  induction l1 as [|x l1 IH]; intros [|y l2] H1 H2 H.
  - reflexivity.
  - exfalso. apply (proj2 (H y)). left. reflexivity.
  - exfalso. apply (proj1 (H x)). left. reflexivity.
  - inversion H1 as [|? ? S1 F1]; subst. inversion H2 as [|? ? S2 F2]; subst.
    rewrite Forall_forall in F1, F2.
    assert (E : x = y).
    { destruct (proj1 (H x) (or_introl eq_refl)) as [E|Hx]; [congruence|].
      destruct (proj2 (H y) (or_introl eq_refl)) as [E|Hy]; [exact E|].
      exfalso. exact (compare_lt_asym x y (F1 y Hy) (F2 x Hx)). }
    subst y. f_equal. apply IH; [exact S1 | exact S2|].
    intro z. split; intro Hz.
    + destruct (proj1 (H z) (or_intror Hz)) as [E|Hz']; [|exact Hz'].
      subst z. exfalso. exact (compare_lt_irrefl x (F1 x Hz)).
    + destruct (proj2 (H z) (or_intror Hz)) as [E|Hz']; [|exact Hz'].
      subst z. exfalso. exact (compare_lt_irrefl x (F2 x Hz)).
Qed.

Lemma strings_of_strings (l : list jsval) : Forall is_string l -> map JString (strings_of l) = l.
Proof.
  induction 1 as [|v l Hv _ IH]; [reflexivity|].
  destruct v as [|t]; [destruct Hv|]. simpl. rewrite IH. reflexivity.
Qed.

Lemma all_colors_strings (this : StyleGuide) :
  Forall is_string
    (Arr.sort default_after
       (unique jsval_eqb (colors_of this "color" ++ colors_of this "background-color")))
  /\ ascending
       (strings_of
          (Arr.sort default_after
             (unique jsval_eqb (colors_of this "color" ++ colors_of this "background-color")))).
Proof.
  apply sort_default_ascending.
  - apply Forall_forall. intros v Hv.
    apply (proj1 (unique_In jsval_eqb jsval_eqb_spec _ _)) in Hv.
    apply in_app_iff in Hv.
    destruct (colors_of_strings this "color") as [Hc _].
    destruct (colors_of_strings this "background-color") as [Hb _].
    rewrite Forall_forall in Hc, Hb. destruct Hv; auto.
  - apply unique_NoDup. exact jsval_eqb_spec.
Qed.

(** X17: the list of [getColors] depends only on which values occur under
    [color] or [background-color]: two documents with the same values there,
    in whatever order, number and division between the two properties, have
    the same list. *)
Theorem colors_depend_on_value_set (this that : StyleGuide) :
  (forall v, In v (values_of this "color" ++ values_of this "background-color")
             <-> In v (values_of that "color" ++ values_of that "background-color")) ->
  getColors this = getColors that.
Proof.
  intro H. rewrite !getColors_run. f_equal.
  destruct (all_colors_strings this) as [S1 A1].
  destruct (all_colors_strings that) as [S2 A2].
  rewrite <- (strings_of_strings _ S1), <- (strings_of_strings _ S2). f_equal.
  apply ascending_ext; [exact A1 | exact A2|].
  intro x. rewrite !strings_of_In, !all_colors_In, !colors_of_In.
  pose proof (H (JString x)) as Hx. rewrite !in_app_iff in Hx. tauto.
Qed.

Lemma colors_depend_on_value_set_witness :
  getColors (document [] [("color", [JString "red"; JString "#fff"])] [] [])
  = getColors (document [] [("background-color", [JString "#fff"; JString "red"; JString "#fff"])]
                        [] []).
Proof.
  apply colors_depend_on_value_set.
  intro v. cbn. tauto.
Defined.

(** ** Shorthand spacings *)

Lemma filter_truthy_strings (l : list string) :
  ~ In EmptyString l -> filter truthy (map JString l) = map JString l.
Proof.
  induction l as [|x l IH]; intro H; [reflexivity|].
  simpl. destruct x as [|c x]; [exfalso; apply H; left; reflexivity|].
  rewrite IH; [reflexivity|]. intro Hx. apply H. right. exact Hx.
Qed.

Lemma spacing_values_doc (margin padding : list string) :
  ~ In EmptyString (margin ++ padding) ->
  spacing_values (spacing_doc margin padding) = (margin ++ padding)%list.
Proof.
  intro H. unfold spacing_values, spacing_doc, document, values_of.
  cbn [statistics properties Obj.get String.eqb Ascii.eqb Bool.eqb or_empty].
  rewrite <- map_app, filter_truthy_strings by exact H. apply strings_of_JString.
Qed.

Lemma split_pieces (l : list string) :
  flat_map (Str.split " ") (flat_map (Str.split " ") l) = flat_map (Str.split " ") l.
Proof.
  induction l as [|x l IH]; [reflexivity|].
  cbn [flat_map]. rewrite flat_map_app, IH. f_equal.
  assert (H : forall pieces, (forall piece, In piece pieces -> Str.has_char " " piece = false) ->
                             flat_map (Str.split " ") pieces = pieces).
  { induction pieces as [|q pieces IHp]; intro Hq; [reflexivity|].
    cbn [flat_map]. rewrite (split_without_sep " " q) by (apply Hq; left; reflexivity).
    rewrite IHp by (intros piece Hp; apply Hq; right; exact Hp). reflexivity. }
  apply H. intros piece Hp. exact (split_no_sep " " x piece Hp).
Qed.

(** X18: when no part between blanks of a [margin] or [padding] value is
    empty, [getSpacings] returns for the values the list it returns for
    their parts declared one by one. *)
Theorem spacings_shorthand_expands
  (localeCompare : string -> string -> Num.num) (margin padding : list string) :
  ~ In EmptyString (flat_map (Str.split " ") (margin ++ padding)) ->
  getSpacings localeCompare
    (spacing_doc (flat_map (Str.split " ") margin) (flat_map (Str.split " ") padding))
  = getSpacings localeCompare (spacing_doc margin padding).
Proof.
  intro H. rewrite !getSpacings_run. unfold spacings_of.
  rewrite spacing_values_doc by (rewrite <- flat_map_app; exact H).
  rewrite spacing_values_doc.
  - rewrite <- flat_map_app, split_pieces. reflexivity.
  - intro He. apply H. apply in_flat_map. exists EmptyString. split; [exact He|].
    left. reflexivity.
Qed.

Lemma spacings_shorthand_expands_witness :
  getSpacings code_unit_order
    (spacing_doc (flat_map (Str.split " ") ["10px 5px"; "0 auto"]) (flat_map (Str.split " ") ["1em 5px"]))
  = getSpacings code_unit_order (spacing_doc ["10px 5px"; "0 auto"] ["1em 5px"]).
Proof.
  apply spacings_shorthand_expands.
  cbn. intros [H|[H|[H|[H|[H|[H|[]]]]]]]; discriminate H.
Defined.

(** ** [remToPx] without a number *)

Lemma trim_start_all_chars (p : ascii -> bool) (s : string) :
  all_chars p s = true -> all_chars p (Str.trim_start s) = true.
Proof.
  induction s as [|c s IH]; [trivial|].
  intro H. cbn [Str.trim_start]. destruct (Str.is_space c); [|exact H].
  apply IH. cbn [all_chars] in H. apply andb_true_iff in H. tauto.
Qed.

Lemma scan_no_digit (s : string) (acc : Z) :
  numberless s = true -> Num.scan_digits s acc 0 = (acc, 0, s).
Proof.
  destruct s as [|c s]; [reflexivity|].
  unfold numberless. cbn [all_chars Num.scan_digits].
  rewrite !andb_true_iff, !negb_true_iff. intros [[H _] _]. rewrite H. reflexivity.
Qed.

Lemma numberless_tail (c : ascii) (s : string) :
  numberless (String c s) = true -> numberless s = true.
Proof. unfold numberless. cbn [all_chars]. rewrite andb_true_iff. tauto. Qed.

(** What [parseFloat] does after the sign, on a string without a number. *)
Lemma parse_unsigned_numberless (neg : bool) (s1 : string) :
  numberless s1 = true ->
  (if String.prefix "Infinity" s1 then S754_infinity neg
   else
     let '(ip, icount, s2) := Num.scan_digits s1 0 0 in
     let '(m, fcount, s3) :=
       match s2 with
       | String "." t => Num.scan_digits t ip 0
       | _ => (ip, 0, s2)
       end in
     if (icount =? 0) && (fcount =? 0) then Num.nan
     else Num.of_decimal neg m (Num.scan_exponent s3 - fcount)) = Num.nan.
Proof.
  intro H.
  assert (Hp : String.prefix "Infinity" s1 = false).
  { destruct s1 as [|c s1]; [reflexivity|].
    unfold numberless in H. cbn [all_chars] in H.
    rewrite !andb_true_iff, !negb_true_iff in H. destruct H as [[_ H] _].
    cbn [String.prefix]. destruct (ascii_dec "I" c) as [E|E]; [|reflexivity].
    subst c. discriminate H. }
  rewrite Hp, (scan_no_digit s1 0 H).
  destruct s1 as [|c t]; [reflexivity|].
  pose proof (numberless_tail c t H) as Ht.
  destruct c as [[] [] [] [] [] [] [] []];
    try reflexivity; rewrite (scan_no_digit t 0 Ht); reflexivity.
Qed.

Lemma parseFloat_numberless (size : string) :
  numberless size = true -> Num.parseFloat size = Num.nan.
Proof.
  intro H. apply (trim_start_all_chars _ size) in H. fold (numberless (Str.trim_start size)) in H.
  unfold Num.parseFloat. destruct (Str.trim_start size) as [|c t]; [reflexivity|].
  pose proof (numberless_tail c t H) as Ht.
  destruct c as [[] [] [] [] [] [] [] []];
    first [ exact (parse_unsigned_numberless false t Ht)
          | exact (parse_unsigned_numberless true t Ht)
          | exact (parse_unsigned_numberless false _ H) ].
Qed.

Lemma mul_nan_r (x : Num.num) : Num.mul x Num.nan = Num.nan.
Proof. destruct x; reflexivity. Qed.

(** X19: [remToPx] returns [NaNpx] for a root font size that is not a
    number, and for a size in which no digit occurs (nor the head of
    [Infinity]), whatever the root font size. *)
Theorem remToPx_not_a_number (rootFontSize : Num.num) (fontSize : string) :
  Num.is_nan rootFontSize = true \/ numberless fontSize = true ->
  remToPx rootFontSize fontSize = "NaNpx".
Proof.
  intros [H|H]; unfold remToPx.
  - destruct rootFontSize; try discriminate H. reflexivity.
  - rewrite (parseFloat_numberless fontSize H), mul_nan_r. reflexivity.
Qed.

Lemma remToPx_not_a_number_witness :
  numberless "rem" = true /\ remToPx (Num.of_Z 16) "rem" = "NaNpx".
Proof.
  split; [reflexivity|]. apply remToPx_not_a_number. right. reflexivity.
Defined.
